(** * A thread pool over a linked request queue (threadpool_task3.c)

    The development embeds the request list of [threadpool_task3.c]
    (the globals [requests], [last_request], [num_requests], [quit] and
    the heap of [struct request] nodes), the two list operations
    [add_request] and [get_request], the worker loop
    [handle_requests_loop] and the demo [main], and proves the
    properties of the queue and of the shutdown protocol. *)

From stdpp Require Import gmap list.
From Stdlib Require Import ZArith Lia.

Local Open Scope Z_scope.

(** ** Pointers, requests and the globals *)

(** A pointer is an address; [NULL] is address [0]. *)
Abbreviation ptr := Z (only parsing).
Definition NULL : ptr := 0.

(** [int] is a 32-bit signed integer. *)
Definition INT_MAX : Z := 2147483647.
Definition INT_MIN : Z := -2147483648.

(** The functions of the program a request can point to. *)
Inductive fnptr := fp_test_func | fp_squareValue.

#[global] Instance fnptr_eq_dec : EqDecision fnptr.
Proof. solve_decision. Defined.

(** [struct request]: the function to call, its argument, and the
    pointer to the next request ([NULL] if none). *)
Record request := Request {
  func : fnptr;
  data : ptr;
  next : ptr
}.

#[global] Instance request_eq_dec : EqDecision request.
Proof. solve_decision. Defined.

(** The globals of the program together with the heap of request nodes. *)
Record state := State {
  heap : gmap Z request;      (* the malloc'ed [struct request] nodes   *)
  requests : ptr;             (* head of linked list of requests        *)
  last_request : ptr;         (* pointer to last request                *)
  num_requests : Z;           (* number of pending requests             *)
  quit : Z                    (* the shutdown flag                      *)
}.

(** The globals as initialised at program start. *)
Definition initial : state :=
  {| heap := ∅; requests := NULL; last_request := NULL;
     num_requests := 0; quit := 0 |}.

(** The result of running a piece of the program: it returns, the process
    exits ([exit(1)]), or the behaviour is undefined in C (a dereference
    of a pointer that is not a live node, a signed overflow, a bad
    [free]). *)
Inductive outcome (A : Type) :=
  | Ok (a : A)
  | Exit (code : Z)
  | Fault.
Arguments Ok {A} a.
Arguments Exit {A} code.
Arguments Fault {A}.

(** [p->field] reads a live node; [NULL] and dangling pointers have none. *)
Definition load (h : gmap Z request) (p : ptr) : option request :=
  if decide (p = NULL) then None else h !! p.

(** ** [add_request]

    [a_request] is what [malloc] returned: [NULL] on failure, else the
    address of a block that was not live. *)

(** Lines 53-55: the fields of the new node are filled in. *)
Definition new_request (f : fnptr) (d : ptr) (a_request : ptr)
    (h : gmap Z request) : gmap Z request :=
  <[a_request := Request f d NULL]> h.

(** Lines 62-74, executed with the mutex held: the node is linked at the
    end of the list and the counter is incremented. *)
Definition link_request (a_request : ptr) (s : state) : outcome state :=
  let linked : outcome (gmap Z request * ptr * ptr) :=
    if decide (num_requests s = 0) then
      (* requests = a_request; last_request = a_request; *)
      Ok (heap s, a_request, a_request)
    else
      (* last_request->next = a_request; last_request = a_request; *)
      match load (heap s) (last_request s) with
      | None => Fault
      | Some r =>
          Ok (<[last_request s := Request (func r) (data r) a_request]> (heap s),
              requests s, a_request)
      end in
  match linked with
  | Ok (h', req', last') =>
      (* num_requests++; a signed overflow is undefined *)
      if decide (num_requests s + 1 ≤ INT_MAX) then
        Ok {| heap := h'; requests := req'; last_request := last';
              num_requests := num_requests s + 1; quit := quit s |}
      else Fault
  | Exit c => Exit c
  | Fault => Fault
  end.

Definition with_heap (h : gmap Z request) (s : state) : state :=
  {| heap := h; requests := requests s; last_request := last_request s;
     num_requests := num_requests s; quit := quit s |}.

Definition add_request (f : fnptr) (d : ptr) (a_request : ptr) (s : state)
  : outcome state :=
  if decide (a_request = NULL) then
    (* malloc failed: fprintf(stderr, ...); exit(1); *)
    Exit 1
  else
    link_request a_request
      (with_heap (new_request f d a_request (heap s)) s).

(** ** [get_request]

    Returns the pointer to the removed request, or [NULL] if none. *)
Definition get_request (s : state) : outcome (ptr * state) :=
  if decide (num_requests s > 0) then
    (* a_request = requests; requests = a_request->next; *)
    match load (heap s) (requests s) with
    | None => Fault
    | Some r =>
        let requests' := next r in
        (* if (requests == NULL) last_request = NULL; *)
        let last' := if decide (requests' = NULL) then NULL
                     else last_request s in
        (* num_requests--; *)
        Ok (requests s,
            {| heap := heap s; requests := requests'; last_request := last';
               num_requests := num_requests s - 1; quit := quit s |})
    end
  else
    (* requests list is empty: a_request = NULL; *)
    Ok (NULL, s).

(** [free(p)]: [free(NULL)] does nothing, otherwise the block must be
    live. *)
Definition free (p : ptr) (s : state) : outcome state :=
  if decide (p = NULL) then Ok s
  else match heap s !! p with
       | None => Fault
       | Some _ => Ok (with_heap (delete p (heap s)) s)
       end.

(** ** Sequences of queue operations

    A client of the list calls [add_request] and [get_request] in any
    order and frees the requests it was handed.  The configuration keeps,
    next to the globals, the requests the callers still hold and the
    history of the items that went in and came out. *)

Definition item : Type := fnptr * ptr.
Definition item_of (r : request) : item := (func r, data r).

Record config := Config {
  globals : state;
  owned : list ptr;        (* returned by [get_request], not yet freed *)
  submitted : list item;   (* the items passed to [add_request], in order *)
  dequeued : list item     (* the items of the requests returned, in order *)
}.

Definition init_config : config :=
  {| globals := initial; owned := []; submitted := []; dequeued := [] |}.

Inductive op :=
  | OpAdd (f : fnptr) (d : ptr) (a : ptr)   (* add_request; [a] is malloc's answer *)
  | OpGet                                   (* get_request *)
  | OpFree (p : ptr).                       (* free of a request held by a caller *)

(** What the environment may do: [malloc] answers [NULL] or a block that
    is not live, and a caller frees only a request it holds. *)
Definition op_allowed (o : op) (c : config) : Prop :=
  match o with
  | OpAdd _ _ a => a = NULL ∨ heap (globals c) !! a = None
  | OpGet => True
  | OpFree p => p ∈ owned c
  end.

#[global] Instance op_allowed_dec o c : Decision (op_allowed o c).
Proof. destruct o; simpl; apply _. Defined.

Definition exec (o : op) (c : config) : outcome config :=
  match o with
  | OpAdd f d a =>
      match add_request f d a (globals c) with
      | Ok s' => Ok {| globals := s'; owned := owned c;
                       submitted := submitted c ++ [(f, d)];
                       dequeued := dequeued c |}
      | Exit n => Exit n
      | Fault => Fault
      end
  | OpGet =>
      match get_request (globals c) with
      | Ok (p, s') =>
          if decide (p = NULL) then
            Ok {| globals := s'; owned := owned c;
                  submitted := submitted c; dequeued := dequeued c |}
          else
            match load (heap s') p with
            | None => Fault
            | Some r => Ok {| globals := s'; owned := p :: owned c;
                              submitted := submitted c;
                              dequeued := dequeued c ++ [item_of r] |}
            end
      | Exit n => Exit n
      | Fault => Fault
      end
  | OpFree p =>
      match free p (globals c) with
      | Ok s' => Ok {| globals := s';
                       owned := filter (λ q, q ≠ p) (owned c);
                       submitted := submitted c; dequeued := dequeued c |}
      | Exit n => Exit n
      | Fault => Fault
      end
  end.

(** [run ops c] executes the operations in order; [None] when one of them
    is not allowed where it occurs. *)
Fixpoint run (ops : list op) (c : config) : option (outcome config) :=
  match ops with
  | [] => Some (Ok c)
  | o :: ops' =>
      if decide (op_allowed o c) then
        match exec o c with
        | Ok c' => run ops' c'
        | Exit n => Some (Exit n)
        | Fault => Some Fault
        end
      else None
  end.

(** The configurations a run of allowed operations reaches from the
    initial empty queue. *)
Definition reachable (c : config) : Prop :=
  ∃ ops, run ops init_config = Some (Ok c).

(** ** The shape of the list

    [chain h p l]: starting at [p] and following [next], the heap [h]
    holds exactly the nodes at the addresses of [l], carrying the items
    of [l], and then [NULL]. *)
Fixpoint chain (h : gmap Z request) (p : ptr) (l : list (ptr * item)) : Prop :=
  match l with
  | [] => p = NULL
  | (a, it) :: l' =>
      p = a ∧ a ≠ NULL ∧
      ∃ r, h !! a = Some r ∧ item_of r = it ∧ chain h (next r) l'
  end.

(** [queue_repr s l]: the globals of [s] hold the list [l]. *)
Definition queue_repr (s : state) (l : list (ptr * item)) : Prop :=
  chain (heap s) (requests s) l ∧
  num_requests s = Z.of_nat (length l) ∧
  last_request s = default NULL (last (l.*1)) ∧
  num_requests s ≤ INT_MAX.

(** [contents s]: the nodes found by walking [num_requests] steps from
    [requests]; [None] when the walk leaves the heap or does not end in
    [NULL]. *)
Fixpoint walk (h : gmap Z request) (p : ptr) (n : nat)
  : option (list (ptr * item)) :=
  match n with
  | O => if decide (p = NULL) then Some [] else None
  | S n' =>
      match load h p with
      | None => None
      | Some r => cons (p, item_of r) <$> walk h (next r) n'
      end
  end.

Definition contents (s : state) : option (list (ptr * item)) :=
  walk (heap s) (requests s) (Z.to_nat (num_requests s)).

(** The invariant of the configurations. *)
Definition config_inv (c : config) : Prop :=
  ∃ l, queue_repr (globals c) l ∧
       NoDup (l.*1 ++ owned c) ∧
       (∀ p, p ∈ owned c → p ≠ NULL ∧ is_Some (heap (globals c) !! p)) ∧
       submitted c = dequeued c ++ l.*2.

(** The list is terminated at the tail: when the counter is positive,
    [last_request] is a live node whose [next] is [NULL]. *)
Definition tail_terminated (s : state) : Prop :=
  num_requests s > 0 →
  ∃ r, load (heap s) (last_request s) = Some r ∧ next r = NULL.

(** ** The work functions *)

(** [test_func]: prints a line, touches no memory. *)
Definition test_func (arg : ptr) (mem : list Z) : outcome (list Z) := Ok mem.

(** [squareValue]: [*value = *value * *value] on an [int].  The pointer
    [&array[i]] is represented by the index [i] into the array. *)
Definition squareValue (arg : ptr) (mem : list Z) : outcome (list Z) :=
  if decide (0 ≤ arg) then
    match mem !! Z.to_nat arg with
    | None => Fault
    | Some v =>
        if decide (INT_MIN ≤ v * v ∧ v * v ≤ INT_MAX) then
          Ok (<[Z.to_nat arg := v * v]> mem)
        else Fault
    end
  else Fault.

(** The call through the function pointer. *)
Definition call (f : fnptr) (arg : ptr) (mem : list Z) : outcome (list Z) :=
  match f with
  | fp_test_func => test_func arg mem
  | fp_squareValue => squareValue arg mem
  end.

(** [handle_request]: [a_request->func(a_request->data)]. *)
Definition handle_request (a_request : ptr) (h : gmap Z request)
    (mem : list Z) : outcome (list Z) :=
  match load h a_request with
  | None => Fault
  | Some r => call (func r) (data r) mem
  end.

(** ** The threads

    Each thread is a program counter over the lines of its function and
    its locals; a step of the system runs one line of one thread. *)

Definition NUM_HANDLER_THREADS : Z := 3.

Inductive tid := Main | Worker (i : nat).

#[global] Instance tid_eq_dec : EqDecision tid.
Proof. solve_decision. Defined.

(** Program points of [handle_requests_loop]. *)
Inductive wpc :=
  | W_lock          (* 142: pthread_mutex_lock(&request_mutex); 145: running = 1 *)
  | W_while         (* 146: while (running) *)
  | W_if_pending    (* 148: if (num_requests > 0) *)
  | W_get           (* 150: a_request = get_request(); 151: if (a_request) *)
  | W_unlock_req    (* 155: pthread_mutex_unlock(&request_mutex) *)
  | W_handle        (* 159: handle_request(a_request, thread_id) *)
  | W_free          (* 161: free(a_request) *)
  | W_relock        (* 164: pthread_mutex_lock(&request_mutex) *)
  | W_wait          (* 173: pthread_cond_wait releases the mutex *)
  | W_sleeping      (* 173: blocked on got_request *)
  | W_woken         (* 173: woken, reacquires the mutex *)
  | W_quit_lock     (* 178: pthread_mutex_lock(&quit_mutex) *)
  | W_quit_test     (* 179: if (quit) running = 0 *)
  | W_quit_unlock   (* 180: pthread_mutex_unlock(&quit_mutex) *)
  | W_unlock_exit   (* 182: pthread_mutex_unlock(&request_mutex) *)
  | W_done.         (* 183: return NULL *)

#[global] Instance wpc_eq_dec : EqDecision wpc.
Proof. solve_decision. Defined.

Record worker := MkWorker {
  w_pc : wpc;
  a_request : ptr;      (* the local a_request *)
  running : Z           (* the local running *)
}.

(** Program points of [main]. *)
Inductive mpc :=
  | M_init                        (* 207-209: the mutexes and the condition *)
  | M_create (i : Z)              (* 212-216: pthread_create loop *)
  | M_add (i : Z)                 (* 220, 222: loop test, call; 47-55: malloc and fields *)
  | M_add_lock (i : Z) (a : ptr)  (* 58: pthread_mutex_lock(p_mutex) *)
  | M_add_link (i : Z) (a : ptr)  (* 62-74: the list update *)
  | M_add_unlock (i : Z)          (* 77: pthread_mutex_unlock(p_mutex) *)
  | M_add_signal (i : Z)          (* 80: pthread_cond_signal(p_cond_var) *)
  | M_delay (i : Z)               (* 225-230: rand and nanosleep *)
  | M_quit_lock                   (* 235 *)
  | M_quit_set                    (* 236: quit = 1 *)
  | M_quit_unlock                 (* 237 *)
  | M_broadcast                   (* 238: pthread_cond_broadcast(&got_request) *)
  | M_join (i : Z)                (* 240-243: pthread_join loop *)
  | M_print                       (* 245-251 *)
  | M_done.                       (* 253: return 0 *)

Record system := System {
  glob : state;
  array : list Z;                 (* main's int array[] *)
  request_mutex : option tid;     (* the owner, if locked *)
  quit_mutex : option tid;
  workers : gmap nat worker;      (* the threads created so far *)
  main_pc : mpc;
  stdout : list Z                 (* the numbers printed by lines 247-250 *)
}.

(** Line 205. *)
Definition input_array : list Z :=
  [1; 12; 21323; 12; 31312; 1; 13; 3; 5; 7; 8; 9; 943].

Definition init_system : system :=
  {| glob := initial; array := input_array;
     request_mutex := None; quit_mutex := None;
     workers := ∅; main_pc := M_init; stdout := [] |}.

(** What is scheduled next: a line of [main] (with the answer of the
    environment where the line asks for one: the block [malloc] returns,
    the waiter [pthread_cond_signal] picks), a line of worker [i], or a
    spurious wakeup of worker [i] inside [pthread_cond_wait]. *)
Inductive label :=
  | L_main (oracle : Z)
  | L_worker (i : nat)
  | L_spurious (i : nat).

Definition set_glob (g : state) (s : system) : system :=
  {| glob := g; array := array s; request_mutex := request_mutex s;
     quit_mutex := quit_mutex s; workers := workers s;
     main_pc := main_pc s; stdout := stdout s |}.
Definition set_array (a : list Z) (s : system) : system :=
  {| glob := glob s; array := a; request_mutex := request_mutex s;
     quit_mutex := quit_mutex s; workers := workers s;
     main_pc := main_pc s; stdout := stdout s |}.
Definition set_request_mutex (m : option tid) (s : system) : system :=
  {| glob := glob s; array := array s; request_mutex := m;
     quit_mutex := quit_mutex s; workers := workers s;
     main_pc := main_pc s; stdout := stdout s |}.
Definition set_quit_mutex (m : option tid) (s : system) : system :=
  {| glob := glob s; array := array s; request_mutex := request_mutex s;
     quit_mutex := m; workers := workers s;
     main_pc := main_pc s; stdout := stdout s |}.
Definition set_worker (i : nat) (w : worker) (s : system) : system :=
  {| glob := glob s; array := array s; request_mutex := request_mutex s;
     quit_mutex := quit_mutex s; workers := <[i := w]> (workers s);
     main_pc := main_pc s; stdout := stdout s |}.
Definition set_main_pc (pc : mpc) (s : system) : system :=
  {| glob := glob s; array := array s; request_mutex := request_mutex s;
     quit_mutex := quit_mutex s; workers := workers s;
     main_pc := pc; stdout := stdout s |}.
Definition set_stdout (o : list Z) (s : system) : system :=
  {| glob := glob s; array := array s; request_mutex := request_mutex s;
     quit_mutex := quit_mutex s; workers := workers s;
     main_pc := main_pc s; stdout := o |}.
Definition set_quit (q : Z) (g : state) : state :=
  {| heap := heap g; requests := requests g; last_request := last_request g;
     num_requests := num_requests g; quit := q |}.

Definition goto (pc : wpc) (w : worker) : worker :=
  {| w_pc := pc; a_request := a_request w; running := running w |}.

(** A step of the system: [None] when the scheduled thread cannot run
    (it waits for a mutex, sleeps, has returned, or does not exist, or
    the environment's answer is not a possible one). *)
Definition step_result : Type := option (outcome system).
Definition next_state (s : system) : step_result := Some (Ok s).
Definition blocked : step_result := None.
Definition undefined : step_result := Some Fault.

(** [pthread_mutex_lock] and [pthread_mutex_unlock] on a mutex field. *)
Definition lock (m : option tid) (t : tid) : option (option tid) :=
  match m with
  | None => Some (Some t)
  | Some _ => None
  end.

Definition unlock (m : option tid) (t : tid) : outcome (option tid) :=
  if decide (m = Some t) then Ok None else Fault.

(** One line of [handle_requests_loop] in worker [i]. *)
Definition worker_step (i : nat) (s : system) : step_result :=
  match workers s !! i with
  | None => blocked
  | Some w =>
      let me := Worker i in
      match w_pc w with
      | W_lock =>
          match lock (request_mutex s) me with
          | None => blocked
          | Some m =>
              next_state (set_worker i
                {| w_pc := W_while; a_request := a_request w; running := 1 |}
                (set_request_mutex m s))
          end
      | W_while =>
          if decide (running w ≠ 0)
          then next_state (set_worker i (goto W_if_pending w) s)
          else next_state (set_worker i (goto W_unlock_exit w) s)
      | W_if_pending =>
          if decide (num_requests (glob s) > 0)
          then next_state (set_worker i (goto W_get w) s)
          else next_state (set_worker i (goto W_wait w) s)
      | W_get =>
          match get_request (glob s) with
          | Ok (p, g') =>
              let w' := {| w_pc := if decide (p ≠ NULL) then W_unlock_req
                                   else W_quit_lock;
                           a_request := p; running := running w |} in
              next_state (set_worker i w' (set_glob g' s))
          | Exit n => Some (Exit n)
          | Fault => undefined
          end
      | W_unlock_req =>
          match unlock (request_mutex s) me with
          | Ok m => next_state (set_worker i (goto W_handle w)
                                  (set_request_mutex m s))
          | _ => undefined
          end
      | W_handle =>
          match handle_request (a_request w) (heap (glob s)) (array s) with
          | Ok mem => next_state (set_worker i (goto W_free w)
                                    (set_array mem s))
          | Exit n => Some (Exit n)
          | Fault => undefined
          end
      | W_free =>
          match free (a_request w) (glob s) with
          | Ok g' => next_state (set_worker i (goto W_relock w)
                                   (set_glob g' s))
          | Exit n => Some (Exit n)
          | Fault => undefined
          end
      | W_relock =>
          match lock (request_mutex s) me with
          | None => blocked
          | Some m => next_state (set_worker i (goto W_quit_lock w)
                                    (set_request_mutex m s))
          end
      | W_wait =>
          match unlock (request_mutex s) me with
          | Ok m => next_state (set_worker i (goto W_sleeping w)
                                  (set_request_mutex m s))
          | _ => undefined
          end
      | W_sleeping => blocked
      | W_woken =>
          match lock (request_mutex s) me with
          | None => blocked
          | Some m => next_state (set_worker i (goto W_quit_lock w)
                                    (set_request_mutex m s))
          end
      | W_quit_lock =>
          match lock (quit_mutex s) me with
          | None => blocked
          | Some m => next_state (set_worker i (goto W_quit_test w)
                                    (set_quit_mutex m s))
          end
      | W_quit_test =>
          let w' := {| w_pc := W_quit_unlock; a_request := a_request w;
                       running := if decide (quit (glob s) ≠ 0) then 0
                                  else running w |} in
          next_state (set_worker i w' s)
      | W_quit_unlock =>
          match unlock (quit_mutex s) me with
          | Ok m => next_state (set_worker i (goto W_while w)
                                  (set_quit_mutex m s))
          | _ => undefined
          end
      | W_unlock_exit =>
          match unlock (request_mutex s) me with
          | Ok m => next_state (set_worker i (goto W_done w)
                                  (set_request_mutex m s))
          | _ => undefined
          end
      | W_done => blocked
      end
  end.

(** A wakeup of worker [i] blocked in [pthread_cond_wait]. *)
Definition wake (i : nat) (s : system) : option system :=
  match workers s !! i with
  | Some w => if decide (w_pc w = W_sleeping)
              then Some (set_worker i (goto W_woken w) s) else None
  | None => None
  end.

Definition sleeping (s : system) : gmap nat worker :=
  filter (λ kw, w_pc kw.2 = W_sleeping) (workers s).

(** [pthread_cond_broadcast]: every waiter is woken. *)
Definition broadcast (s : system) : system :=
  {| glob := glob s; array := array s; request_mutex := request_mutex s;
     quit_mutex := quit_mutex s;
     workers := (λ w, if decide (w_pc w = W_sleeping) then goto W_woken w
                      else w) <$> workers s;
     main_pc := main_pc s; stdout := stdout s |}.

(** One line of [main]. *)
Definition main_step (oracle : Z) (s : system) : step_result :=
  match main_pc s with
  | M_init => next_state (set_main_pc (M_create 0) s)
  | M_create i =>
      if decide (i < NUM_HANDLER_THREADS) then
        (* the new thread starts at the top of handle_requests_loop *)
        next_state (set_main_pc (M_create (i + 1))
          (set_worker (Z.to_nat i)
             {| w_pc := W_lock; a_request := NULL; running := 0 |} s))
      else next_state (set_main_pc (M_add 0) s)
  | M_add i =>
      if decide (i < Z.of_nat (length (array s))) then
        (* add_request(squareValue, &array[i], ...): malloc answers [oracle] *)
        if decide (oracle = NULL) then Some (Exit 1)
        else if decide (heap (glob s) !! oracle = None) then
          next_state (set_main_pc (M_add_lock i oracle)
            (set_glob (with_heap (new_request fp_squareValue i oracle
                                    (heap (glob s))) (glob s)) s))
        else blocked
      else next_state (set_main_pc M_quit_lock s)
  | M_add_lock i a =>
      match lock (request_mutex s) Main with
      | None => blocked
      | Some m => next_state (set_main_pc (M_add_link i a)
                                (set_request_mutex m s))
      end
  | M_add_link i a =>
      match link_request a (glob s) with
      | Ok g' => next_state (set_main_pc (M_add_unlock i) (set_glob g' s))
      | Exit n => Some (Exit n)
      | Fault => undefined
      end
  | M_add_unlock i =>
      match unlock (request_mutex s) Main with
      | Ok m => next_state (set_main_pc (M_add_signal i)
                              (set_request_mutex m s))
      | _ => undefined
      end
  | M_add_signal i =>
      (* one of the waiters, if there is any, is woken *)
      if decide (sleeping s = ∅) then next_state (set_main_pc (M_delay i) s)
      else if decide (0 ≤ oracle) then
        match wake (Z.to_nat oracle) s with
        | Some s' => next_state (set_main_pc (M_delay i) s')
        | None => blocked
        end
      else blocked
  | M_delay i => next_state (set_main_pc (M_add (i + 1)) s)
  | M_quit_lock =>
      match lock (quit_mutex s) Main with
      | None => blocked
      | Some m => next_state (set_main_pc M_quit_set (set_quit_mutex m s))
      end
  | M_quit_set =>
      next_state (set_main_pc M_quit_unlock (set_glob (set_quit 1 (glob s)) s))
  | M_quit_unlock =>
      match unlock (quit_mutex s) Main with
      | Ok m => next_state (set_main_pc M_broadcast (set_quit_mutex m s))
      | _ => undefined
      end
  | M_broadcast => next_state (set_main_pc (M_join 0) (broadcast s))
  | M_join i =>
      if decide (i < NUM_HANDLER_THREADS) then
        match workers s !! Z.to_nat i with
        | Some w => if decide (w_pc w = W_done)
                    then next_state (set_main_pc (M_join (i + 1)) s)
                    else blocked
        | None => undefined
        end
      else next_state (set_main_pc M_print s)
  | M_print => next_state (set_main_pc M_done (set_stdout (array s) s))
  | M_done => blocked
  end.

Definition step (l : label) (s : system) : step_result :=
  match l with
  | L_main oracle => main_step oracle s
  | L_worker i => worker_step i s
  | L_spurious i =>
      match wake i s with
      | Some s' => next_state s'
      | None => blocked
      end
  end.

(** Running a schedule from a state. *)
Fixpoint run_schedule (sched : list label) (s : system) : step_result :=
  match sched with
  | [] => next_state s
  | l :: sched' =>
      match step l s with
      | Some (Ok s') => run_schedule sched' s'
      | r => r
      end
  end.

(** Worker [i] leaves its loop in the step from [s] to [s']: the test of
    [while (running)] at line 146 fails. *)
Definition leaves_loop (i : nat) (s s' : system) : Prop :=
  ∃ w w', workers s !! i = Some w ∧ w_pc w = W_while ∧
          step (L_worker i) s = Some (Ok s') ∧
          workers s' !! i = Some w' ∧ w_pc w' = W_unlock_exit.

(** Drain on shutdown, as a property of the runs: a worker leaves its
    loop only when the list is empty and [quit] is set. *)
Definition drain_on_shutdown : Prop :=
  ∀ sched s s' i,
    run_schedule sched init_system = Some (Ok s) →
    leaves_loop i s s' →
    num_requests (glob s) = 0 ∧ quit (glob s) ≠ 0.

(** ** The invariant of the demo

    A worker holds the request it took off the list from the return of
    [get_request] until it has freed it; the request is pending until
    [handle_request] has run. *)
Inductive hold := NoHold | Pending | Handled.

#[global] Instance hold_eq_dec : EqDecision hold.
Proof. solve_decision. Defined.

Definition hold_of (pc : wpc) : hold :=
  match pc with
  | W_unlock_req | W_handle => Pending
  | W_free => Handled
  | _ => NoHold
  end.

Definition holds (ws : gmap nat worker) (k : nat) (a : ptr) : Prop :=
  ∃ w, ws !! k = Some w ∧ hold_of (w_pc w) ≠ NoHold ∧ a_request w = a.

Definition pends (ws : gmap nat worker) (k : nat) (a : ptr) : Prop :=
  ∃ w, ws !! k = Some w ∧ hold_of (w_pc w) = Pending ∧ a_request w = a.

(** How far [main] is: the requests linked into the list, the threads
    created, the threads joined, and the node [add_request] has allocated
    and not yet linked. *)
Definition submitted_count (pc : mpc) : Z :=
  match pc with
  | M_init | M_create _ => 0
  | M_add i | M_add_lock i _ | M_add_link i _ => i
  | M_add_unlock i | M_add_signal i | M_delay i => i + 1
  | _ => 13
  end.

Definition created_count (pc : mpc) : Z :=
  match pc with
  | M_init => 0
  | M_create i => i
  | _ => 3
  end.

Definition joined_count (pc : mpc) : Z :=
  match pc with
  | M_join i => i
  | M_print | M_done => 3
  | _ => 0
  end.

Definition main_node (pc : mpc) : option (Z * ptr) :=
  match pc with
  | M_add_lock i a | M_add_link i a => Some (i, a)
  | _ => None
  end.

(** What slot [j] of the array holds when the requests of the indices in
    [H] have been handled. *)
Definition slot (H : gset Z) (j : Z) : option Z :=
  (if decide (j ∈ H) then (λ v, v * v) else id) <$> input_array !! Z.to_nat j.

(** [inv l H g arr ws pc]: the list holds [l]; the requests of the
    indices in [H] have been handled; every request submitted so far is
    handled, in the list, or pending in the hands of one worker. *)
Record inv (l : list (ptr * item)) (H : gset Z) (g : state)
    (arr : list Z) (ws : gmap nat worker) (pc : mpc) : Prop := {
  inv_repr : queue_repr g l;
  inv_items : ∀ a it, (a, it) ∈ l →
    ∃ d, it = (fp_squareValue, d) ∧ (d ∉ H) ∧ 0 ≤ d < submitted_count pc;
  inv_items_nodup : NoDup (l.*2);
  inv_holds : ∀ k a, holds ws k a →
    a ≠ NULL ∧ (a ∉ l.*1) ∧ is_Some (heap g !! a);
  inv_pends : ∀ k a, pends ws k a →
    ∃ r, heap g !! a = Some r ∧ func r = fp_squareValue ∧
         0 ≤ data r < submitted_count pc ∧ (data r ∉ H) ∧ (item_of r ∉ l.*2);
  inv_holds_distinct : ∀ k k' a a',
    k ≠ k' → holds ws k a → holds ws k' a' → a ≠ a';
  inv_pends_distinct : ∀ k k' a a' r r',
    k ≠ k' → pends ws k a → pends ws k' a' →
    heap g !! a = Some r → heap g !! a' = Some r' → data r ≠ data r';
  inv_main_node : ∀ i a, main_node pc = Some (i, a) →
    i < 13 ∧ a ≠ NULL ∧ heap g !! a = Some (Request fp_squareValue i NULL) ∧
    (a ∉ l.*1) ∧ ∀ k, ¬ holds ws k a;
  inv_count : 0 ≤ submitted_count pc ≤ 13;
  inv_handled : ∀ j, j ∈ H → 0 ≤ j < submitted_count pc;
  inv_cover : ∀ j, 0 ≤ j < submitted_count pc →
    j ∈ H ∨ (fp_squareValue, j) ∈ l.*2 ∨
    ∃ k a r, pends ws k a ∧ heap g !! a = Some r ∧ data r = j;
  inv_array_len : length arr = 13%nat;
  inv_array : ∀ j, 0 ≤ j < 13 → arr !! Z.to_nat j = slot H j;
  inv_created : ∀ k w, ws !! k = Some w → Z.of_nat k < created_count pc;
  inv_created_range : 0 ≤ created_count pc ≤ 3;
  inv_joined : ∀ k w, ws !! k = Some w →
    Z.of_nat k < joined_count pc → w_pc w = W_done
}.

Definition sys_inv (s : system) : Prop :=
  ∃ l H, inv l H (glob s) (array s) (workers s) (main_pc s).

(** ** Sample inputs *)

(** A run of the list operations in which a freed block is handed out
    again by [malloc]. *)
Definition sample_ops : list op :=
  [OpAdd fp_squareValue 0 100; OpAdd fp_test_func 7 101; OpGet;
   OpAdd fp_squareValue 2 102; OpFree 100; OpAdd fp_squareValue 3 100;
   OpGet].

(** A list of two requests, and the same list once shutdown was asked. *)
Definition two_requests : state :=
  {| heap := <[100 := Request fp_squareValue 0 101]>
               (<[101 := Request fp_test_func 7 NULL]> ∅);
     requests := 100; last_request := 101; num_requests := 2; quit := 0 |}.

Definition two_requests_list : list (ptr * item) :=
  [(100, (fp_squareValue, 0)); (101, (fp_test_func, 7))].

(** Schedules of the demo.  In [early_quit_schedule] main submits the
    thirteen requests and sets [quit] before any worker has run; each
    worker then runs alone until it returns, and main joins. *)
Definition submit_all : list label :=
  mjoin ((λ i, L_main (100 + i) :: replicate 5 (L_main 0)) <$> seqZ 0 13).

Definition early_quit_prefix : list label :=
  replicate 5 (L_main 0) ++ submit_all ++ replicate 5 (L_main 0) ++
  replicate 11 (L_worker 0).

Definition early_quit_schedule : list label :=
  early_quit_prefix ++ replicate 2 (L_worker 0) ++
  replicate 13 (L_worker 1) ++ replicate 13 (L_worker 2) ++
  replicate 5 (L_main 0).

(** In [drained_schedule] the three workers first go to sleep on the
    condition; each request is then submitted, the signal wakes one
    worker, and that worker handles and frees the request and sleeps
    again, before main goes on; main sets [quit] after the last one. *)
Definition serve_one (i : nat) : list label :=
  [L_main 100; L_main 0; L_main 0; L_main 0;
   L_main (Z.of_nat (i mod 3)); L_main 0] ++
  replicate 17 (L_worker (i mod 3)).

Definition drained_schedule : list label :=
  replicate 5 (L_main 0) ++
  replicate 4 (L_worker 0) ++ replicate 4 (L_worker 1) ++
  replicate 4 (L_worker 2) ++
  mjoin (serve_one <$> seq 0 13) ++
  replicate 5 (L_main 0) ++
  replicate 6 (L_worker 0) ++ replicate 6 (L_worker 1) ++
  replicate 6 (L_worker 2) ++
  replicate 5 (L_main 0).

(** Every request in turn, as a worker handles it. *)
Definition square_each (mem : list Z) : outcome (list Z) :=
  foldl (λ acc i, match acc with
                  | Ok m => squareValue i m
                  | r => r
                  end) (Ok mem) (seqZ 0 (Z.of_nat (length mem))).

(** ** The live nodes of a configuration *)

(** [accounted c l]: the live nodes are the nodes of the list and the
    requests in the hands of the callers, and no others. *)
Definition accounted (c : config) (l : list (ptr * item)) : Prop :=
  ∀ q, is_Some (heap (globals c) !! q) ↔ q ∈ l.*1 ∨ q ∈ owned c.

(** ** The mutexes and the flag

    The program points at which a thread owns [request_mutex] (between a
    lock and the matching unlock or wait) and [quit_mutex], and the
    points of [main] after line 236 has written [quit]. *)
Definition w_req (pc : wpc) : bool :=
  match pc with
  | W_while | W_if_pending | W_get | W_unlock_req | W_wait | W_quit_lock
  | W_quit_test | W_quit_unlock | W_unlock_exit => true
  | _ => false
  end.

Definition w_quit (pc : wpc) : bool :=
  match pc with
  | W_quit_test | W_quit_unlock => true
  | _ => false
  end.

Definition m_req (pc : mpc) : bool :=
  match pc with
  | M_add_link _ _ | M_add_unlock _ => true
  | _ => false
  end.

Definition m_quit (pc : mpc) : bool :=
  match pc with
  | M_quit_set | M_quit_unlock => true
  | _ => false
  end.

Definition quit_written (pc : mpc) : bool :=
  match pc with
  | M_quit_unlock | M_broadcast | M_join _ | M_print | M_done => true
  | _ => false
  end.

(** Each mutex is owned by exactly the thread that is at a point where
    it holds it; [quit] is 1 exactly after line 236; a worker whose
    [running] is 0 has read [quit] set; the threads created are the
    workers. *)
Record aux (s : system) : Prop := {
  aux_req_worker : ∀ k w, workers s !! k = Some w →
    w_req (w_pc w) = true → request_mutex s = Some (Worker k);
  aux_req_owner : ∀ k, request_mutex s = Some (Worker k) →
    ∃ w, workers s !! k = Some w ∧ w_req (w_pc w) = true;
  aux_req_main : m_req (main_pc s) = true ↔ request_mutex s = Some Main;
  aux_quit_worker : ∀ k w, workers s !! k = Some w →
    w_quit (w_pc w) = true → quit_mutex s = Some (Worker k);
  aux_quit_owner : ∀ k, quit_mutex s = Some (Worker k) →
    ∃ w, workers s !! k = Some w ∧ w_quit (w_pc w) = true;
  aux_quit_main : m_quit (main_pc s) = true ↔ quit_mutex s = Some Main;
  aux_quit_flag : quit (glob s) = if quit_written (main_pc s) then 1 else 0;
  aux_running : ∀ k w, workers s !! k = Some w →
    w_pc w ≠ W_lock → running w = 0 → quit (glob s) = 1;
  aux_exist : ∀ k : nat, Z.of_nat k < created_count (main_pc s) →
    is_Some (workers s !! k);
  aux_keys : ∀ k w, workers s !! k = Some w →
    Z.of_nat k < created_count (main_pc s);
  aux_created : 0 ≤ created_count (main_pc s) ≤ 3
}.

(** How a step of thread [t] changes a mutex: it leaves it alone, takes
    it when it is free, or releases it. *)
Definition mutex_step (m m' : option tid) (b b' : bool) (t : tid) : Prop :=
  (m' = m ∧ b' = b) ∨
  (m = None ∧ m' = Some t ∧ b' = true) ∨
  (m = Some t ∧ m' = None ∧ b' = false).

(** ** The order of the list and the live nodes in the demo

    [ext l g ws pc]: the list holds the requests of consecutive slots, in
    the order main submitted them, up to the last one submitted; the
    live nodes are the nodes of the list, the requests in the hands of
    the workers and the node main has allocated and not yet linked. *)
Record ext (l : list (ptr * item)) (g : state) (ws : gmap nat worker)
    (pc : mpc) : Prop := {
  ext_fifo : l.*2 = (λ j, (fp_squareValue, j)) <$>
               seqZ (submitted_count pc - Z.of_nat (length l))
                    (Z.of_nat (length l));
  ext_len : Z.of_nat (length l) ≤ submitted_count pc;
  ext_live : ∀ q, is_Some (heap g !! q) ↔
               q ∈ l.*1 ∨ (∃ k, holds ws k q) ∨
               (∃ i, main_node pc = Some (i, q))
}.

Definition full (l : list (ptr * item)) (H : gset Z) (s : system) : Prop :=
  inv l H (glob s) (array s) (workers s) (main_pc s) ∧
  ext l (glob s) (workers s) (main_pc s).

(** A worker about to call [get_request] has seen a pending request, and
    nothing is printed before line 247. *)
Record late (s : system) : Prop := {
  late_pending : ∀ k w, workers s !! k = Some w → w_pc w = W_get →
    num_requests (glob s) > 0;
  late_stdout : match main_pc s with
                | M_done => stdout s = array s
                | _ => stdout s = []
                end
}.

(** The wakeups the program does not cause. *)
Definition is_spurious (lab : label) : bool :=
  match lab with
  | L_spurious _ => true
  | _ => false
  end.

(** ** More sample runs *)

(** In [lost_wakeup_schedule] main submits the thirteen requests, worker 0
    handles them all and finds [quit] still 0 at its last test, main then
    sets [quit] and broadcasts, and worker 0, back at line 148 with the
    list empty, waits on the condition. *)
Definition lost_wakeup_schedule : list label :=
  replicate 5 (L_main 0) ++ submit_all ++ replicate 131 (L_worker 0) ++
  replicate 5 (L_main 0) ++ replicate 3 (L_worker 0).

(** Worker 0 is about to call [get_request] at line 150. *)
Definition line_150_schedule : list label :=
  replicate 5 (L_main 0) ++ submit_all ++ replicate 3 (L_worker 0).


(** The states of the demo the sample schedules lead to. *)
Definition after_lost_wakeup : system :=
  Eval vm_compute in
    match run_schedule lost_wakeup_schedule init_system with
    | Some (Ok s) => s
    | _ => init_system
    end.

Definition at_early_quit : system :=
  Eval vm_compute in
    match run_schedule early_quit_prefix init_system with
    | Some (Ok s) => s
    | _ => init_system
    end.

Definition past_early_quit : system :=
  Eval vm_compute in
    match step (L_worker 0) at_early_quit with
    | Some (Ok s) => s
    | _ => init_system
    end.

Definition after_early_quit : system :=
  Eval vm_compute in
    match run_schedule early_quit_schedule init_system with
    | Some (Ok s) => s
    | _ => init_system
    end.

Definition at_line_150 : system :=
  Eval vm_compute in
    match run_schedule line_150_schedule init_system with
    | Some (Ok s) => s
    | _ => init_system
    end.

(** ** Proof steps that recur *)

(** The fields of the invariant, by name. *)
Ltac inv_fields Hinv :=
  destruct Hinv as [Hrepr Hitems Hnodup Hheld Hpend Hhd Hpd Hmain Hcount
                    Hhandled Hcover Hlen Harr Hcreated Hcrange Hjoined].

(** The side conditions of a move of main between two program points,
    given the lemma for such moves. *)
Ltac main_move lem :=
  eapply lem;
  [ eassumption | simpl; lia | reflexivity | simpl; lia
  | simpl; try (intros; lia) ].

(** The fields of the invariant of the mutexes, by name. *)
Ltac aux_fields Haux :=
  destruct Haux as [Hrw Hro Hrm Hqw Hqo Hqm Hflag Hrun Hexist Hkeys Hcr].

(** What a successful lock or unlock says of the mutex, given the two
    lemmas that say it. *)
Ltac mutex_facts lock_lem unlock_lem :=
  repeat match goal with
  | H : lock _ _ = Some _ |- _ => apply lock_lem in H as [? ?]
  | H : unlock _ _ = Ok _ |- _ => apply unlock_lem in H as [? ?]
  end; subst.

Ltac solve_mutex_step Hpc :=
  unfold mutex_step; simpl; rewrite ?Hpc; simpl;
  first [ by left
        | by (right; left; split_and!; try done)
        | by (right; right; split_and!; try done) ].

Ltac solve_running Hpc :=
  simpl; intros ? Hr;
  first [ by (left; rewrite Hpc) | discriminate Hr | by right | lia ].

(** The side conditions of a move of main, for both invariants. *)
Ltac full_move lem Hfull Hpc :=
  eapply lem;
  [ exact Hfull | reflexivity | reflexivity | reflexivity | reflexivity
  | reflexivity | reflexivity | rewrite ?Hpc; simpl; lia
  | rewrite ?Hpc; reflexivity | rewrite ?Hpc; simpl; lia
  | rewrite ?Hpc; simpl; try (intros; lia) ].

(** * Proofs *)

(** ** Chains *)

Lemma load_Some h p r : load h p = Some r ↔ p ≠ NULL ∧ h !! p = Some r.
Proof. unfold load. destruct (decide (p = NULL)); split; intros; intuition congruence. Qed.

Lemma chain_live h p l a : chain h p l → a ∈ l.*1 → a ≠ NULL ∧ is_Some (h !! a).
Proof.
  revert p. induction l as [|[b it] l IH]; simpl; intros p Hc Hin.
  - by apply elem_of_nil in Hin.
  - destruct Hc as (-> & Hb & r & Hr & _ & Hc).
    apply elem_of_cons in Hin as [->|Hin]; [by eauto|by eapply IH].
Qed.

Lemma chain_insert_fresh h p l a r :
  chain h p l → a ∉ l.*1 → chain (<[a := r]> h) p l.
Proof.
  revert p. induction l as [|[b it] l IH]; simpl; intros p Hc Hnin; [done|].
  destruct Hc as (-> & Hb & rb & Hrb & Hit & Hc).
  apply not_elem_of_cons in Hnin as [Hne Hnin].
  split; [done|]. split; [done|]. exists rb.
  rewrite lookup_insert_ne by done. eauto.
Qed.

Lemma chain_delete_fresh h p l a :
  chain h p l → a ∉ l.*1 → chain (delete a h) p l.
Proof.
  revert p. induction l as [|[b it] l IH]; simpl; intros p Hc Hnin; [done|].
  destruct Hc as (-> & Hb & rb & Hrb & Hit & Hc).
  apply not_elem_of_cons in Hnin as [Hne Hnin].
  split; [done|]. split; [done|]. exists rb.
  rewrite lookup_delete_ne by done. eauto.
Qed.

Lemma chain_functional h p l1 l2 :
  chain h p l1 → chain h p l2 → l1 = l2.
Proof.
  revert p l2. induction l1 as [|[a it] l1 IH]; intros p [|[b it'] l2]; simpl.
  - done.
  - intros -> (-> & ? & _). done.
  - intros (-> & ? & _) ->. done.
  - intros (-> & _ & r & Hr & <- & Hc) (<- & _ & r' & Hr' & <- & Hc').
    rewrite Hr in Hr'. injection Hr' as <-. f_equal. by eapply IH.
Qed.

(** The node at the end of a chain has a null [next]. *)
Lemma chain_last h p l b it :
  chain h p (l ++ [(b, it)]) →
  b ≠ NULL ∧ ∃ r, h !! b = Some r ∧ item_of r = it ∧ next r = NULL.
Proof.
  revert p. induction l as [|[a it'] l IH]; simpl; intros p.
  - intros (-> & Hb & r & Hr & Hit & Hn). eauto.
  - intros (-> & _ & r & _ & _ & Hc). by eapply IH.
Qed.

(** A chain that reaches [NULL] visits no node twice. *)
Lemma chain_suffix h p l a :
  chain h p l → a ∈ l.*1 →
  ∃ l1 l2, l = l1 ++ l2 ∧ l2 ≠ [] ∧ chain h a l2.
Proof.
  revert p. induction l as [|[b it] l IH]; simpl; intros p Hc Hin.
  - by apply elem_of_nil in Hin.
  - apply elem_of_cons in Hin as [->|Hin].
    + exists [], ((b, it) :: l). simpl. destruct Hc as (_ & Hc). eauto.
    + destruct Hc as (_ & _ & r & _ & _ & Hc).
      destruct (IH _ Hc Hin) as (l1 & l2 & -> & Hne & Hc2).
      exists ((b, it) :: l1), l2. eauto.
Qed.

Lemma chain_NoDup h p l : chain h p l → NoDup (l.*1).
Proof.
  revert p. induction l as [|[a it] l IH]; simpl; intros p Hc.
  - apply NoDup_nil_2.
  - pose proof Hc as (-> & Ha & r & Hr & Hit & Hc').
    apply NoDup_cons. split; [|by eapply IH].
    intros Hin. destruct (chain_suffix _ _ _ _ Hc' Hin) as (l1 & l2 & -> & _ & Hc2).
    assert (chain h a ((a, it) :: l1 ++ l2)) as Hfull by (simpl; eauto 10).
    pose proof (chain_functional _ _ _ _ Hc2 Hfull) as Heq.
    apply (f_equal length) in Heq. simpl in Heq. rewrite length_app in Heq. lia.
Qed.

(** Linking a fresh node behind the last one extends the chain. *)
Lemma chain_snoc h p l b it rb a ra :
  chain h p (l ++ [(b, it)]) →
  a ∉ (l ++ [(b, it)]).*1 → a ≠ NULL →
  h !! b = Some rb → h !! a = Some ra → next ra = NULL →
  chain (<[b := Request (func rb) (data rb) a]> h) p
        ((l ++ [(b, it)]) ++ [(a, item_of ra)]).
Proof.
  intros Hc Hnin Ha Hb Hra Hnext.
  pose proof (chain_NoDup _ _ _ Hc) as Hnd.
  assert (a ≠ b) as Hab.
  { intros ->. apply Hnin. rewrite fmap_app. set_solver. }
  revert p Hc Hnd Hnin. induction l as [|[c it'] l IH]; simpl; intros p Hc Hnd Hnin.
  - destruct Hc as (-> & Hbn & r & Hr & Hit & Hn).
    rewrite Hb in Hr. injection Hr as <-.
    split; [done|]. split; [done|]. eexists. rewrite lookup_insert_eq.
    split; [done|]. split; [done|]. simpl. split; [done|]. split; [done|].
    exists ra. rewrite lookup_insert_ne by done. done.
  - destruct Hc as (-> & Hcn & r & Hr & Hit & Hc).
    apply NoDup_cons in Hnd as [Hcl Hnd].
    apply not_elem_of_cons in Hnin as [Hac Hnin].
    assert (c ≠ b) as Hcb.
    { intros ->. apply Hcl. rewrite fmap_app. set_solver. }
    split; [done|]. split; [done|]. exists r.
    rewrite lookup_insert_ne by done.
    split; [done|]. split; [done|]. by apply IH.
Qed.

Lemma walk_chain h p l : chain h p l → walk h p (length l) = Some l.
Proof.
  revert p. induction l as [|[a it] l IH]; simpl; intros p.
  - intros ->. by rewrite decide_True.
  - intros (-> & Ha & r & Hr & <- & Hc).
    rewrite (proj2 (load_Some _ _ _) (conj Ha Hr)). by rewrite (IH _ Hc).
Qed.

Lemma chain_walk h p n l : walk h p n = Some l → chain h p l ∧ length l = n.
Proof.
  revert p l. induction n as [|n IH]; simpl; intros p l.
  - case_decide; [|done]. by intros [= <-].
  - destruct (load h p) as [r|] eqn:Hl; [|done].
    destruct (walk h (next r) n) as [l'|] eqn:Hw; [|done].
    intros [= <-]. apply load_Some in Hl as [Hp Hr].
    destruct (IH _ _ Hw) as [Hc <-]. simpl. eauto 10.
Qed.

(** ** The two list operations on a represented list *)

Lemma snoc_cases {A} (l : list A) : l = [] ∨ ∃ l0 x, l = l0 ++ [x].
Proof. induction l using rev_ind; eauto. Qed.

Lemma last_fst_snoc (l : list (ptr * item)) b it :
  default NULL (last ((l ++ [(b, it)]).*1)) = b.
Proof. rewrite fmap_app. simpl. by rewrite last_snoc. Qed.

Lemma get_request_none s :
  num_requests s ≤ 0 → get_request s = Ok (NULL, s).
Proof. intros Hn. unfold get_request. rewrite decide_False by lia. done. Qed.

Lemma get_request_repr s a it l :
  queue_repr s ((a, it) :: l) →
  ∃ r, heap s !! a = Some r ∧ item_of r = it ∧
       get_request s =
         Ok (a, {| heap := heap s; requests := next r;
                   last_request := if decide (next r = NULL) then NULL
                                   else last_request s;
                   num_requests := num_requests s - 1; quit := quit s |}) ∧
       queue_repr {| heap := heap s; requests := next r;
                     last_request := if decide (next r = NULL) then NULL
                                     else last_request s;
                     num_requests := num_requests s - 1; quit := quit s |} l.
Proof.
  intros ((Hp & Ha & r & Hr & Hit & Hc) & Hnum & Hlast & Hmax).
  simpl in Hnum, Hlast. exists r. split; [done|]. split; [done|].
  split.
  - unfold get_request. rewrite decide_True by lia.
    rewrite Hp, (proj2 (load_Some _ _ _) (conj Ha Hr)). done.
  - unfold queue_repr; simpl. split; [done|]. split; [lia|].
    split; [|lia].
    destruct l as [|[b it'] l]; simpl in *.
    + by rewrite decide_True.
    + destruct Hc as (Hb & Hbn & _). rewrite decide_False by congruence.
      exact Hlast.
Qed.

Lemma link_request_repr f d a s l :
  queue_repr s l → a ≠ NULL → heap s !! a = Some (Request f d NULL) →
  a ∉ l.*1 → num_requests s < INT_MAX →
  ∃ s', link_request a s = Ok s' ∧
        queue_repr s' (l ++ [(a, (f, d))]) ∧
        num_requests s' = num_requests s + 1 ∧
        last_request s' = a ∧ quit s' = quit s ∧
        heap s' !! a = Some (Request f d NULL) ∧
        (∀ q, q ∉ l.*1 → heap s' !! q = heap s !! q).
Proof.
  intros (Hc & Hnum & Hlast & Hmax) Ha Hnode Hnin Hlt.
  unfold link_request.
  destruct (snoc_cases l) as [->|(l0 & [b it] & ->)].
  - simpl in *. rewrite decide_True by lia. rewrite decide_True by lia.
    eexists. split; [done|]. unfold queue_repr; simpl.
    split_and!; try done; try lia. by exists (Request f d NULL).
  - rewrite length_app in Hnum. simpl in Hnum.
    rewrite last_fst_snoc in Hlast.
    destruct (chain_last _ _ _ _ _ Hc) as (Hb & rb & Hrb & Hit & Hnext).
    assert (a ≠ b) as Hab.
    { intros ->. apply Hnin. rewrite fmap_app. set_solver. }
    rewrite decide_False by lia. rewrite Hlast.
    rewrite (proj2 (load_Some _ b rb) (conj Hb Hrb)).
    rewrite decide_True by lia.
    eexists. split; [done|]. unfold queue_repr; simpl.
    split_and!; try done; try lia.
    + by apply (chain_snoc _ _ _ _ _ rb a (Request f d NULL)).
    + rewrite !length_app. simpl. lia.
    + by rewrite last_fst_snoc.
    + by rewrite lookup_insert_ne.
    + intros q Hq. rewrite lookup_insert_ne; [done|].
      intros <-. apply Hq. rewrite fmap_app. set_solver.
Qed.

Lemma link_request_Ok_inv a s s' :
  link_request a s = Ok s' → num_requests s < INT_MAX.
Proof.
  unfold link_request.
  destruct (decide (num_requests s + 1 ≤ INT_MAX)) as [Hle|Hgt]; [lia|].
  repeat case_match; done.
Qed.

Lemma queue_repr_with_heap h s l :
  chain h (requests s) l → queue_repr s l → queue_repr (with_heap h s) l.
Proof. intros Hc (_ & Hrest). split; done. Qed.

Lemma add_request_repr f d a s l :
  queue_repr s l → a ≠ NULL → heap s !! a = None →
  num_requests s < INT_MAX →
  ∃ s', add_request f d a s = Ok s' ∧
        queue_repr s' (l ++ [(a, (f, d))]) ∧
        num_requests s' = num_requests s + 1 ∧
        last_request s' = a ∧ quit s' = quit s ∧
        heap s' !! a = Some (Request f d NULL) ∧
        (∀ q, q ≠ a → q ∉ l.*1 → heap s' !! q = heap s !! q).
Proof.
  intros Hrepr Ha Hfresh Hlt.
  assert (a ∉ l.*1) as Hnin.
  { intros Hin. destruct Hrepr as (Hc & _).
    destruct (chain_live _ _ _ _ Hc Hin) as [_ [r Hr]]. congruence. }
  unfold add_request. rewrite decide_False by done.
  destruct (link_request_repr f d a
              (with_heap (new_request f d a (heap s)) s) l)
    as (s' & Hlink & Hrepr' & Hnum & Hlast & Hquit & Hnew & Hframe);
    try done.
  - apply queue_repr_with_heap; [|done]. destruct Hrepr as (Hc & _).
    by apply chain_insert_fresh.
  - unfold new_request. simpl. by rewrite lookup_insert_eq.
  - exists s'. split_and!; try done.
    intros q Hq Hq'. rewrite Hframe by done. unfold new_request. simpl.
    by rewrite lookup_insert_ne.
Qed.

Lemma free_repr p s l :
  queue_repr s l → p ∉ l.*1 → p ≠ NULL → is_Some (heap s !! p) →
  ∃ s', free p s = Ok s' ∧ queue_repr s' l ∧
        heap s' = delete p (heap s) ∧ quit s' = quit s.
Proof.
  intros (Hc & Hnum & Hlast & Hmax) Hnin Hp [r Hr].
  unfold free. rewrite decide_False by done. rewrite Hr.
  eexists. split; [done|]. split; [|done].
  unfold queue_repr; simpl. split_and!; try done.
  by apply chain_delete_fresh.
Qed.

(** A represented list is terminated at the tail. *)
Lemma repr_tail_terminated s l : queue_repr s l → tail_terminated s.
Proof.
  intros (Hc & Hnum & Hlast & _) Hpos.
  destruct (snoc_cases l) as [->|(l0 & [b it] & ->)]; [simpl in Hnum; lia|].
  rewrite last_fst_snoc in Hlast.
  destruct (chain_last _ _ _ _ _ Hc) as (Hb & rb & Hrb & _ & Hnext).
  exists rb. rewrite Hlast. split; [|done]. by apply load_Some.
Qed.

(** The head and tail pointers against the counter. *)
Lemma repr_pointers s l :
  queue_repr s l →
  (requests s ≠ NULL ↔ num_requests s > 0) ∧
  (last_request s ≠ NULL ↔ num_requests s > 0) ∧
  (num_requests s = 1 → requests s = last_request s).
Proof.
  intros (Hc & Hnum & Hlast & _). split; [|split].
  - destruct l as [|[a it] l]; simpl in *.
    + rewrite Hc, Hnum. split; [done|lia].
    + destruct Hc as (-> & Ha & _). split; [lia|done].
  - destruct (snoc_cases l) as [->|(l0 & [b it] & ->)].
    + simpl in *. rewrite Hlast, Hnum. split; [done|lia].
    + rewrite last_fst_snoc in Hlast. rewrite length_app in Hnum.
      simpl in Hnum. destruct (chain_last _ _ _ _ _ Hc) as [Hb _].
      split; [lia|congruence].
  - intros H1. destruct l as [|[a it] [|]]; simpl in *; lia.
Qed.

(** The walk computes the represented list. *)
Lemma contents_repr s l :
  queue_repr s l ↔
  contents s = Some l ∧ 0 ≤ num_requests s ≤ INT_MAX ∧
  last_request s = default NULL (last (l.*1)).
Proof.
  unfold queue_repr, contents. split.
  - intros (Hc & Hnum & Hlast & Hmax).
    rewrite Hnum, Nat2Z.id. split; [by apply walk_chain|]. split; [lia|done].
  - intros (Hw & Hnum & Hlast). apply chain_walk in Hw as [Hc Hlen].
    split; [done|]. split; [lia|]. split; [done|lia].
Qed.

Lemma add_request_Ok_inv f d a s s' :
  add_request f d a s = Ok s' → a ≠ NULL ∧ num_requests s < INT_MAX.
Proof.
  unfold add_request. destruct (decide (a = NULL)); [done|].
  intros Hlink%link_request_Ok_inv. done.
Qed.

(** ** The invariant of the configurations *)

Lemma init_config_inv : config_inv init_config.
Proof.
  exists []. unfold queue_repr, init_config, initial, INT_MAX; simpl.
  split_and!; try done; try lia.
  - apply NoDup_nil_2.
  - intros p Hp. by apply elem_of_nil in Hp.
Qed.

Lemma exec_inv o c c' :
  config_inv c → op_allowed o c → exec o c = Ok c' → config_inv c'.
Proof.
  intros (l & Hrepr & Hnd & Hown & Hlog) Hallow Hexec.
  destruct o as [f d a| |p]; simpl in *.
  - (* add_request *)
    destruct (add_request f d a (globals c)) as [s'| |] eqn:Hadd; [|done..].
    injection Hexec as <-.
    destruct (add_request_Ok_inv _ _ _ _ _ Hadd) as [Ha Hlt].
    destruct Hallow as [?|Hfresh]; [done|].
    destruct (add_request_repr f d a _ _ Hrepr Ha Hfresh Hlt)
      as (s2 & Hadd2 & Hrepr' & _ & _ & _ & Hnew & Hframe).
    rewrite Hadd in Hadd2. injection Hadd2 as <-.
    assert (a ∉ owned c) as Hao.
    { intros Hin. destruct (Hown _ Hin) as [_ [r Hr]]. congruence. }
    assert (a ∉ l.*1) as Hal.
    { intros Hin. destruct Hrepr as (Hc & _).
      destruct (chain_live _ _ _ _ Hc Hin) as [_ [r Hr]]. congruence. }
    exists (l ++ [(a, (f, d))]). simpl. split; [done|].
    split; [|split].
    + rewrite fmap_app. simpl. rewrite <- app_assoc. simpl.
      apply NoDup_app in Hnd as (Hl & Hdisj & Ho).
      apply NoDup_app. split; [done|]. split; [|by apply NoDup_cons].
      intros q Hq Hq'. apply elem_of_cons in Hq' as [->|Hq']; [done|].
      by eapply Hdisj.
    + intros q Hq. destruct (Hown _ Hq) as [Hqn Hlive]. split; [done|].
      rewrite Hframe; [done|congruence|].
      apply NoDup_app in Hnd as (_ & Hdisj & _). intros Hql. by eapply Hdisj.
    + rewrite Hlog, fmap_app, app_assoc. done.
  - (* get_request *)
    destruct l as [|[a it] l].
    + destruct Hrepr as (Hc & Hnum & Hlast & Hmax). simpl in *.
      rewrite get_request_none in Hexec by lia.
      rewrite decide_True in Hexec by done. injection Hexec as <-.
      exists []. unfold queue_repr. simpl. rewrite app_nil_r in Hlog.
      split_and!; try done. by rewrite app_nil_r.
    + destruct (get_request_repr _ _ _ _ Hrepr)
        as (r & Hr & Hit & Hget & Hrepr').
      pose proof Hrepr as ((_ & Ha & _) & _).
      rewrite Hget in Hexec. rewrite decide_False in Hexec by done.
      simpl in Hexec. rewrite (proj2 (load_Some _ _ _) (conj Ha Hr)) in Hexec.
      injection Hexec as <-. exists l. simpl. split; [done|].
      split; [|split].
      * simpl in Hnd. apply NoDup_cons in Hnd as [Hnin Hnd].
        apply NoDup_app in Hnd as (Hl & Hdisj & Ho).
        apply NoDup_app. split; [done|]. split.
        -- intros q Hq Hq'. apply elem_of_cons in Hq' as [->|Hq'].
           ++ apply Hnin. apply elem_of_app. by left.
           ++ by eapply Hdisj.
        -- apply NoDup_cons. split; [|done].
           intros Hin. apply Hnin. apply elem_of_app. by right.
      * intros q Hq. apply elem_of_cons in Hq as [->|Hq]; [by eauto|].
        by apply Hown.
      * rewrite Hlog, Hit. simpl. by rewrite <- app_assoc.
  - (* free *)
    assert (p ∉ l.*1) as Hpl.
    { apply NoDup_app in Hnd as (_ & Hdisj & _). intros Hin. by eapply Hdisj. }
    destruct (Hown _ Hallow) as [Hp Hlive].
    destruct (free_repr p _ _ Hrepr Hpl Hp Hlive) as (s' & Hfree & Hrepr' & Hheap & _).
    rewrite Hfree in Hexec. injection Hexec as <-.
    exists l. simpl. split; [done|]. split; [|split; [|done]].
    + apply NoDup_app in Hnd as (Hl & Hdisj & Ho).
      apply NoDup_app. split; [done|]. split.
      * intros q Hq Hq'. apply list_elem_of_filter in Hq' as [_ Hq'].
        by eapply Hdisj.
      * by apply NoDup_filter.
    + intros q Hq. apply list_elem_of_filter in Hq as [Hne Hq].
      destruct (Hown _ Hq) as [Hqn Hql]. split; [done|].
      rewrite Hheap. by rewrite lookup_delete_ne.
Qed.

Lemma run_inv ops c c' :
  config_inv c → run ops c = Some (Ok c') → config_inv c'.
Proof.
  revert c. induction ops as [|o ops IH]; simpl; intros c Hinv Hrun.
  - by injection Hrun as <-.
  - destruct (decide (op_allowed o c)) as [Hallow|]; [|done].
    destruct (exec o c) as [c1| |] eqn:Hexec; [|done..].
    eapply IH; [|done]. by eapply exec_inv.
Qed.

Lemma reachable_inv c : reachable c → config_inv c.
Proof. intros [ops Hrun]. eapply run_inv; [apply init_config_inv|done]. Qed.

(** No operation the environment allows is undefined on a configuration
    that satisfies the invariant, short of the counter overflowing. *)
Lemma exec_defined o c :
  config_inv c → op_allowed o c → num_requests (globals c) < INT_MAX →
  exec o c ≠ Fault.
Proof.
  intros (l & Hrepr & Hnd & Hown & Hlog) Hallow Hlt.
  destruct o as [f d a| |p]; simpl in *.
  - destruct Hallow as [->|Hfresh].
    + unfold add_request. by rewrite decide_True.
    + destruct (decide (a = NULL)) as [->|Ha].
      { unfold add_request. by rewrite decide_True. }
      destruct (add_request_repr f d a _ _ Hrepr Ha Hfresh Hlt) as (s' & -> & _).
      done.
  - destruct l as [|[a it] l].
    + destruct Hrepr as (_ & Hnum & _). simpl in Hnum.
      rewrite get_request_none by lia. by rewrite decide_True.
    + destruct (get_request_repr _ _ _ _ Hrepr) as (r & Hr & _ & -> & _).
      pose proof Hrepr as ((_ & Ha & _) & _).
      rewrite decide_False by done. simpl.
      by rewrite (proj2 (load_Some _ _ _) (conj Ha Hr)).
  - assert (p ∉ l.*1) as Hpl.
    { apply NoDup_app in Hnd as (_ & Hdisj & _). intros Hin. by eapply Hdisj. }
    destruct (Hown _ Hallow) as [Hp Hlive].
    destruct (free_repr p _ _ Hrepr Hpl Hp Hlive) as (s' & -> & _). done.
Qed.

Lemma two_requests_repr : queue_repr two_requests two_requests_list.
Proof.
  apply contents_repr. split; [vm_compute; reflexivity|].
  split; [vm_compute; intuition discriminate|reflexivity].
Qed.

Lemma two_requests_quit_repr q :
  queue_repr (set_quit q two_requests) two_requests_list.
Proof.
  apply contents_repr. split; [vm_compute; reflexivity|].
  split; [vm_compute; intuition discriminate|reflexivity].
Qed.

(** * The queue operations *)

(** C9. Dequeue on an empty queue preserves the state: when the counter
    [num_requests] is 0, [get_request] returns [NULL] and the head pointer
    [requests], the tail pointer [last_request] and the counter are what
    they were (the whole state is). *)
Theorem get_request_empty_preserves (s : state) :
  num_requests s = 0 →
  ∃ s', get_request s = Ok (NULL, s') ∧ s' = s ∧
        requests s' = requests s ∧ last_request s' = last_request s ∧
        num_requests s' = num_requests s.
Proof.
  intros Hn. exists s. rewrite get_request_none by lia. done.
Qed.

Lemma get_request_empty_preserves_witness :
  num_requests initial = 0 ∧
  ∃ s', get_request initial = Ok (NULL, s') ∧ s' = initial ∧
        requests s' = requests initial ∧
        last_request s' = last_request initial ∧
        num_requests s' = num_requests initial.
Proof.
  split; [reflexivity|]. apply (get_request_empty_preserves initial).
  reflexivity.
Defined.

(** C4. Dequeue postcondition: on a queue holding the list [l],
    [get_request] returns [NULL] and changes nothing when [l] is empty;
    otherwise it returns the head node, the queue then holds the rest of
    the list, the counter has decreased by exactly 1, and if the removed
    node was the last one both [requests] and [last_request] are [NULL]. *)
Theorem get_request_postcondition (s : state) (l : list (ptr * item)) :
  queue_repr s l →
  match l with
  | [] => get_request s = Ok (NULL, s)
  | (a, it) :: l' =>
      ∃ r s', get_request s = Ok (a, s') ∧
              requests s = a ∧ load (heap s) a = Some r ∧ item_of r = it ∧
              queue_repr s' l' ∧
              num_requests s' = num_requests s - 1 ∧
              (num_requests s = 1 ∨ l' = [] →
               requests s' = NULL ∧ last_request s' = NULL)
  end.
Proof.
  intros Hrepr. destruct l as [|[a it] l'].
  - destruct Hrepr as (_ & Hnum & _). simpl in Hnum.
    apply get_request_none. lia.
  - destruct (get_request_repr _ _ _ _ Hrepr) as (r & Hr & Hit & Hget & Hrepr').
    pose proof Hrepr as ((Hp & Ha & _) & Hnum & _).
    exists r. eexists. split; [exact Hget|].
    split; [done|]. split; [by apply load_Some|]. split; [done|].
    split; [done|]. split; [done|]. simpl.
    intros Hone. assert (l' = []) as ->.
    { destruct Hone as [Hone|]; [|done]. simpl in Hnum.
      destruct l'; [done|simpl in Hnum; lia]. }
    destruct Hrepr' as (Hc & _ & Hlast & _). simpl in Hc, Hlast. done.
Qed.

Lemma get_request_postcondition_witness :
  queue_repr two_requests two_requests_list ∧
  ∃ r s', get_request two_requests = Ok (100, s') ∧
          requests two_requests = 100 ∧
          load (heap two_requests) 100 = Some r ∧
          item_of r = (fp_squareValue, 0) ∧
          queue_repr s' [(101, (fp_test_func, 7))] ∧
          num_requests s' = num_requests two_requests - 1 ∧
          (num_requests two_requests = 1 ∨ [(101, (fp_test_func, 7))] = [] →
           requests s' = NULL ∧ last_request s' = NULL).
Proof.
  split; [apply two_requests_repr|].
  apply (get_request_postcondition two_requests two_requests_list).
  apply two_requests_repr.
Defined.

(** C5. Enqueue postcondition: on a queue holding the list [l], when
    [malloc] hands out a block [a] and the counter is below [INT_MAX],
    [add_request] appends the item at the tail: the queue then holds [l]
    followed by the new node, the counter has increased by exactly 1 and
    [last_request] is the new node. *)
Theorem add_request_postcondition (f : fnptr) (d a : ptr) (s : state)
    (l : list (ptr * item)) :
  queue_repr s l → a ≠ NULL → heap s !! a = None →
  num_requests s < INT_MAX →
  ∃ s', add_request f d a s = Ok s' ∧
        queue_repr s' (l ++ [(a, (f, d))]) ∧
        num_requests s' = num_requests s + 1 ∧
        last_request s' = a ∧
        load (heap s') a = Some (Request f d NULL).
Proof.
  intros Hrepr Ha Hfresh Hlt.
  destruct (add_request_repr f d a s l Hrepr Ha Hfresh Hlt)
    as (s' & Hadd & Hrepr' & Hnum & Hlast & _ & Hnew & _).
  exists s'. split_and!; try done. by apply load_Some.
Qed.

Lemma add_request_postcondition_witness :
  ∃ s', add_request fp_squareValue 2 102 two_requests = Ok s' ∧
        queue_repr s' (two_requests_list ++ [(102, (fp_squareValue, 2))]) ∧
        num_requests s' = num_requests two_requests + 1 ∧
        last_request s' = 102 ∧
        load (heap s') 102 = Some (Request fp_squareValue 2 NULL).
Proof.
  apply (add_request_postcondition fp_squareValue 2 102 two_requests
           two_requests_list).
  - apply two_requests_repr.
  - discriminate.
  - vm_compute. reflexivity.
  - vm_compute. reflexivity.
Defined.

(** C8. Allocation failure is the one way [add_request] fails: it ends
    the process with [exit(1)] exactly when [malloc] returned [NULL], and
    on a well-formed queue with a block from [malloc] and the counter
    below [INT_MAX] it returns normally. *)
Theorem add_request_fails_only_on_allocation (f : fnptr) (d a : ptr)
    (s : state) :
  (add_request f d a s = Exit 1 ↔ a = NULL) ∧
  (∀ n, add_request f d a s = Exit n → a = NULL ∧ n = 1) ∧
  (∀ l, queue_repr s l → a ≠ NULL → heap s !! a = None →
        num_requests s < INT_MAX → ∃ s', add_request f d a s = Ok s').
Proof.
  assert (∀ n, add_request f d a s = Exit n → a = NULL ∧ n = 1) as Hexit.
  { unfold add_request, link_request. intros n.
    destruct (decide (a = NULL)); [by intros [= <-]|].
    simpl. repeat case_match; done. }
  split; [|split; [done|]].
  - split; [by intros [? _]%Hexit|].
    intros ->. unfold add_request. by rewrite decide_True.
  - intros l Hrepr Ha Hfresh Hlt.
    destruct (add_request_repr f d a s l Hrepr Ha Hfresh Hlt) as (s' & ? & _).
    eauto.
Qed.

Lemma add_request_fails_only_on_allocation_witness :
  (add_request fp_squareValue 2 NULL two_requests = Exit 1 ↔ NULL = NULL) ∧
  (∃ s', add_request fp_squareValue 2 102 two_requests = Ok s').
Proof.
  pose proof (add_request_fails_only_on_allocation fp_squareValue 2 NULL
                two_requests) as (Hnull & _).
  pose proof (add_request_fails_only_on_allocation fp_squareValue 2 102
                two_requests) as (_ & _ & Hok).
  split; [exact Hnull|].
  apply (Hok two_requests_list).
  - apply two_requests_repr.
  - discriminate.
  - vm_compute. reflexivity.
  - vm_compute. reflexivity.
Defined.

(** * Runs of the queue *)

(** C2. FIFO dequeue order: after any interleaved sequence of
    [add_request], [get_request] and [free] calls from the empty queue,
    the items of the requests returned by the successive dequeues are, in
    order, a prefix of the items submitted; what remains of the submitted
    sequence is exactly what the list still holds. *)
Theorem fifo_dequeue_order (ops : list op) (c : config) :
  run ops init_config = Some (Ok c) →
  dequeued c `prefix_of` submitted c ∧
  ∃ l, queue_repr (globals c) l ∧ submitted c = dequeued c ++ l.*2.
Proof.
  intros Hrun.
  destruct (run_inv _ _ _ init_config_inv Hrun) as (l & Hrepr & _ & _ & Hlog).
  split; [|by eauto]. rewrite Hlog. by apply prefix_app_r.
Qed.

Lemma fifo_dequeue_order_witness :
  ∃ c, run sample_ops init_config = Some (Ok c) ∧
       dequeued c = [(fp_squareValue, 0); (fp_test_func, 7)] ∧
       submitted c = [(fp_squareValue, 0); (fp_test_func, 7);
                      (fp_squareValue, 2); (fp_squareValue, 3)] ∧
       dequeued c `prefix_of` submitted c.
Proof.
  eexists. split; [vm_compute; reflexivity|].
  split; [reflexivity|]. split; [reflexivity|].
  eapply (fifo_dequeue_order sample_ops). vm_compute. reflexivity.
Defined.

(** C6. Queue structural invariant: in every state reached from the
    empty queue by any sequence of the operations, [requests] is non-null
    iff the counter is positive, [last_request] is non-null iff the
    counter is positive, the two are equal when the counter is 1, and the
    counter is the number of items submitted and not yet dequeued. *)
Theorem queue_structural_invariant (ops : list op) (c : config) :
  run ops init_config = Some (Ok c) →
  let s := globals c in
  (requests s ≠ NULL ↔ num_requests s > 0) ∧
  (last_request s ≠ NULL ↔ num_requests s > 0) ∧
  (num_requests s = 1 → requests s = last_request s) ∧
  num_requests s =
    Z.of_nat (length (submitted c)) - Z.of_nat (length (dequeued c)).
Proof.
  intros Hrun s.
  destruct (run_inv _ _ _ init_config_inv Hrun) as (l & Hrepr & _ & _ & Hlog).
  destruct (repr_pointers _ _ Hrepr) as (Hhead & Htail & Hone).
  split; [done|]. split; [done|]. split; [done|].
  destruct Hrepr as (_ & Hnum & _). subst s.
  rewrite Hnum, Hlog, length_app, length_fmap. lia.
Qed.

Lemma queue_structural_invariant_witness :
  ∃ c, run sample_ops init_config = Some (Ok c) ∧
       let s := globals c in
       (requests s ≠ NULL ↔ num_requests s > 0) ∧
       (last_request s ≠ NULL ↔ num_requests s > 0) ∧
       (num_requests s = 1 → requests s = last_request s) ∧
       num_requests s =
         Z.of_nat (length (submitted c)) - Z.of_nat (length (dequeued c)).
Proof.
  eexists. split; [vm_compute; reflexivity|].
  eapply (queue_structural_invariant sample_ops). vm_compute. reflexivity.
Defined.

(** C10. Tail well-formedness: in every state reached from the empty
    queue by any sequence of the operations, when the queue is non-empty
    the node [last_request] points to is live and its [next] is [NULL];
    and on a well-formed queue both [add_request] and [get_request] lead
    to a state where this holds. *)
Theorem tail_well_formed :
  (∀ ops c, run ops init_config = Some (Ok c) →
            tail_terminated (globals c)) ∧
  (∀ s l f d a s', queue_repr s l → heap s !! a = None →
                   add_request f d a s = Ok s' → tail_terminated s') ∧
  (∀ s l p s', queue_repr s l →
               get_request s = Ok (p, s') → tail_terminated s').
Proof.
  split; [|split].
  - intros ops c Hrun.
    destruct (run_inv _ _ _ init_config_inv Hrun) as (l & Hrepr & _).
    by eapply repr_tail_terminated.
  - intros s l f d a s' Hrepr Hfresh Hadd.
    destruct (add_request_Ok_inv _ _ _ _ _ Hadd) as [Ha Hlt].
    destruct (add_request_repr f d a s l Hrepr Ha Hfresh Hlt)
      as (s2 & Hadd2 & Hrepr' & _).
    rewrite Hadd in Hadd2. injection Hadd2 as <-.
    by eapply repr_tail_terminated.
  - intros s l p s' Hrepr Hget. destruct l as [|[a it] l].
    + destruct Hrepr as (Hc & Hnum & Hrest). simpl in Hnum.
      rewrite get_request_none in Hget by lia. injection Hget as _ <-.
      intros Hpos. lia.
    + destruct (get_request_repr _ _ _ _ Hrepr) as (r & _ & _ & Hget2 & Hrepr').
      rewrite Hget in Hget2. injection Hget2 as _ ->.
      by eapply repr_tail_terminated.
Qed.

Lemma tail_well_formed_witness :
  (∃ c, run sample_ops init_config = Some (Ok c) ∧
        tail_terminated (globals c)) ∧
  (∃ s', add_request fp_squareValue 2 102 two_requests = Ok s' ∧
         tail_terminated s') ∧
  (∃ p s', get_request two_requests = Ok (p, s') ∧ tail_terminated s').
Proof.
  destruct tail_well_formed as (Hrun & Hadd & Hget).
  split; [|split].
  - eexists. split; [vm_compute; reflexivity|].
    eapply (Hrun sample_ops). vm_compute. reflexivity.
  - eexists. split; [vm_compute; reflexivity|].
    eapply (Hadd two_requests two_requests_list fp_squareValue 2 102).
    + apply two_requests_repr.
    + vm_compute. reflexivity.
    + vm_compute. reflexivity.
  - eexists. eexists. split; [vm_compute; reflexivity|].
    eapply (Hget two_requests two_requests_list).
    + apply two_requests_repr.
    + vm_compute. reflexivity.
Defined.

(** * Submission and the shutdown flag *)

(** C3, as stated, fails: with the shutdown flag set ([quit = 1]) and an
    empty queue, [add_request] returns normally and the item is in the
    queue. *)
Lemma add_request_after_quit_enqueues :
  let s := set_quit 1 initial in
  quit s = 1 ∧ contents s = Some [] ∧
  ∃ s', add_request fp_squareValue 0 100 s = Ok s' ∧
        num_requests s' = 1 ∧ requests s' = 100 ∧
        contents s' = Some [(100, (fp_squareValue, 0))].
Proof.
  simpl. split; [reflexivity|]. split; [reflexivity|].
  eexists. split; [vm_compute; reflexivity|].
  split; [reflexivity|]. split; reflexivity.
Qed.

(** C3, amended. [add_request] does not look at the shutdown flag: in a
    state where [quit] is set, on a well-formed queue and with a block
    from [malloc], it returns normally, the item is appended at the tail,
    and [quit] is left as it was. *)
Theorem add_request_ignores_quit (f : fnptr) (d a : ptr) (s : state)
    (l : list (ptr * item)) :
  quit s ≠ 0 →
  queue_repr s l → a ≠ NULL → heap s !! a = None →
  num_requests s < INT_MAX →
  ∃ s', add_request f d a s = Ok s' ∧
        queue_repr s' (l ++ [(a, (f, d))]) ∧
        num_requests s' = num_requests s + 1 ∧
        quit s' = quit s.
Proof.
  intros _ Hrepr Ha Hfresh Hlt.
  destruct (add_request_repr f d a s l Hrepr Ha Hfresh Hlt)
    as (s' & Hadd & Hrepr' & Hnum & _ & Hquit & _).
  exists s'. done.
Qed.

Lemma add_request_ignores_quit_witness :
  ∃ s', add_request fp_squareValue 2 102 (set_quit 1 two_requests) = Ok s' ∧
        queue_repr s' (two_requests_list ++ [(102, (fp_squareValue, 2))]) ∧
        num_requests s' = num_requests (set_quit 1 two_requests) + 1 ∧
        quit s' = quit (set_quit 1 two_requests).
Proof.
  apply (add_request_ignores_quit fp_squareValue 2 102
           (set_quit 1 two_requests) two_requests_list).
  - discriminate.
  - apply two_requests_quit_repr.
  - discriminate.
  - vm_compute. reflexivity.
  - vm_compute. reflexivity.
Defined.

(** * The invariant of the demo *)

Lemma holds_insert ws i w k a :
  holds (<[i := w]> ws) k a ↔
  (k = i ∧ hold_of (w_pc w) ≠ NoHold ∧ a_request w = a) ∨
  (k ≠ i ∧ holds ws k a).
Proof.
  unfold holds. destruct (decide (k = i)) as [->|Hne].
  - rewrite lookup_insert_eq. split.
    + intros (w' & [= <-] & ?). by left.
    + intros [(_ & ? & ?)|[? _]]; [by exists w|done].
  - rewrite lookup_insert_ne by done. split; [by right|].
    intros [[? _]|[_ ?]]; done.
Qed.

Lemma pends_insert ws i w k a :
  pends (<[i := w]> ws) k a ↔
  (k = i ∧ hold_of (w_pc w) = Pending ∧ a_request w = a) ∨
  (k ≠ i ∧ pends ws k a).
Proof.
  unfold pends. destruct (decide (k = i)) as [->|Hne].
  - rewrite lookup_insert_eq. split.
    + intros (w' & [= <-] & ?). by left.
    + intros [(_ & ? & ?)|[? _]]; [by exists w|done].
  - rewrite lookup_insert_ne by done. split; [by right|].
    intros [[? _]|[_ ?]]; done.
Qed.

Lemma pends_holds ws k a : pends ws k a → holds ws k a.
Proof. intros (w & Hw & Hp & Ha). exists w. rewrite Hp. done. Qed.

(** The invariant reads the workers through [holds], [pends] and the
    program counters of the joined ones, and main through its counters. *)
Lemma inv_frame l H g arr ws pc ws' pc' :
  inv l H g arr ws pc →
  (∀ k a, holds ws' k a → holds ws k a) →
  (∀ k a, pends ws' k a ↔ pends ws k a) →
  submitted_count pc' = submitted_count pc →
  main_node pc' = main_node pc →
  (∀ k w, ws' !! k = Some w → Z.of_nat k < created_count pc') →
  0 ≤ created_count pc' ≤ 3 →
  (∀ k w, ws' !! k = Some w → Z.of_nat k < joined_count pc' →
          w_pc w = W_done) →
  inv l H g arr ws' pc'.
Proof.
  intros Hinv Hholds Hpends Hsub Hnode Hcreated' Hrange' Hjoined'.
  inv_fields Hinv.
  split; rewrite ?Hsub, ?Hnode; try done.
  - intros k a Hk. eauto.
  - intros k a Hk%Hpends. eauto.
  - intros k k' a a' Hne Hk Hk'. eauto.
  - intros k k' a a' r r' Hne Hk%Hpends Hk'%Hpends. eauto.
  - intros i a Hi. destruct (Hmain i a Hi) as (? & ? & ? & ? & Hno).
    split_and!; try done. intros k Hk. eapply Hno. eauto.
  - intros j Hj. destruct (Hcover j Hj) as [?|[?|(k & a & r & Hk & ?)]];
      [by left|by right; left|].
    right; right. exists k, a, r. split; [by apply Hpends|done].
Qed.

(** A worker moves between two program points of the same kind. *)
Lemma inv_worker_move l H g arr ws pc i w w' :
  inv l H g arr ws pc →
  ws !! i = Some w →
  hold_of (w_pc w') = hold_of (w_pc w) →
  a_request w' = a_request w ∨ hold_of (w_pc w) = NoHold →
  w_pc w ≠ W_done →
  inv l H g arr (<[i := w']> ws) pc.
Proof.
  intros Hinv Hw Hhold Hreq Hnd.
  eapply inv_frame; try done.
  - intros k a [(-> & Hh & Ha)|[_ Hk]]%holds_insert; [|done].
    exists w. rewrite <- Hhold. destruct Hreq as [<-|Hno]; [done|].
    by rewrite Hhold, Hno in Hh.
  - intros k a. rewrite pends_insert. split.
    + intros [(-> & Hh & Ha)|[_ Hk]]; [|done].
      exists w. rewrite <- Hhold. destruct Hreq as [<-|Hno]; [done|].
      by rewrite Hhold, Hno in Hh.
    + intros (w0 & Hw0 & Hh & Ha). destruct (decide (k = i)) as [->|Hne].
      * left. rewrite Hw in Hw0. injection Hw0 as <-.
        split; [done|]. split; [by rewrite Hhold|].
        destruct Hreq as [->|Hno]; [done|]. by rewrite Hno in Hh.
      * right. split; [done|]. by exists w0.
  - intros k w0 Hk. destruct (decide (k = i)) as [->|Hne].
    + by eapply inv_created.
    + rewrite lookup_insert_ne in Hk by done. by eapply inv_created.
  - by eapply inv_created_range.
  - intros k w0 Hk Hj. destruct (decide (k = i)) as [->|Hne].
    + destruct Hnd. by eapply inv_joined.
    + rewrite lookup_insert_ne in Hk by done. by eapply inv_joined.
Qed.

Lemma inv_glob_eq l H g g' arr ws pc :
  inv l H g arr ws pc →
  heap g' = heap g → requests g' = requests g →
  last_request g' = last_request g → num_requests g' = num_requests g →
  inv l H g' arr ws pc.
Proof.
  intros Hinv Hh Hr Hl Hn. inv_fields Hinv.
  split; rewrite ?Hh; try done.
  unfold queue_repr in *. by rewrite Hh, Hr, Hl, Hn.
Qed.

(** Line 215: a thread is created. *)
Lemma inv_create l H g arr ws i :
  inv l H g arr ws (M_create i) → i < NUM_HANDLER_THREADS →
  inv l H g arr
    (<[Z.to_nat i := {| w_pc := W_lock; a_request := NULL; running := 0 |}]> ws)
    (M_create (i + 1)).
Proof.
  intros Hinv Hlt. unfold NUM_HANDLER_THREADS in Hlt.
  pose proof (inv_created_range _ _ _ _ _ _ Hinv) as Hr. simpl in Hr.
  assert (ws !! Z.to_nat i = None) as Hnew.
  { destruct (ws !! Z.to_nat i) as [w|] eqn:Hw; [|done].
    apply (inv_created _ _ _ _ _ _ Hinv) in Hw. simpl in Hw. lia. }
  eapply inv_frame; try done; simpl.
  - intros k a [(-> & Hh & _)|[_ Hk]]%holds_insert; done.
  - intros k a. rewrite pends_insert. split.
    + intros [(-> & Hh & _)|[_ Hk]]; done.
    + intros Hk. right. split; [|done]. intros ->.
      destruct Hk as (w & Hw & _). congruence.
  - intros k w Hk. destruct (decide (k = Z.to_nat i)) as [->|Hne]; [lia|].
    rewrite lookup_insert_ne in Hk by done.
    apply (inv_created _ _ _ _ _ _ Hinv) in Hk. simpl in Hk. lia.
  - lia.
  - intros k w _ Hk. lia.
Qed.

(** Lines 47-55: the node of request [i] is allocated and filled in. *)
Lemma inv_alloc l H g arr ws i a :
  inv l H g arr ws (M_add i) → i < 13 → a ≠ NULL → heap g !! a = None →
  inv l H (with_heap (new_request fp_squareValue i a (heap g)) g) arr ws
      (M_add_lock i a).
Proof.
  intros Hinv Hlt Ha Hfresh. inv_fields Hinv.
  assert (∀ q, is_Some (heap g !! q) → q ≠ a) as Hlive.
  { intros q [r Hr] ->. congruence. }
  assert (a ∉ l.*1) as Hal.
  { intros Hin. destruct Hrepr as (Hc & _).
    destruct (chain_live _ _ _ _ Hc Hin) as [_ Hs]. by eapply Hlive. }
  assert (∀ k q, holds ws k q →
            new_request fp_squareValue i a (heap g) !! q = heap g !! q) as Hsame.
  { intros k q Hk. unfold new_request. rewrite lookup_insert_ne; [done|].
    intros <-. destruct (Hheld _ _ Hk) as (_ & _ & Hs). by eapply Hlive. }
  split; simpl in *; try done.
  - apply queue_repr_with_heap; [|done]. destruct Hrepr as (Hc & _).
    by apply chain_insert_fresh.
  - intros k q Hk. rewrite (Hsame _ _ Hk). eauto.
  - intros k q Hk. rewrite (Hsame _ _ (pends_holds _ _ _ Hk)). eauto.
  - intros k k' q q' r r' Hne Hk Hk'.
    rewrite (Hsame _ _ (pends_holds _ _ _ Hk)).
    rewrite (Hsame _ _ (pends_holds _ _ _ Hk')). eauto.
  - intros i' a' [= <- <-]. split_and!; try done.
    + unfold new_request. by rewrite lookup_insert_eq.
    + intros k Hk. destruct (Hheld _ _ Hk) as (_ & _ & Hs). by eapply Hlive.
  - intros j Hj. destruct (Hcover j Hj) as [?|[?|(k & q & r & Hk & Hr & Hd)]];
      [by left|by right; left|].
    right; right. exists k, q, r.
    rewrite (Hsame _ _ (pends_holds _ _ _ Hk)). done.
Qed.

(** Lines 62-74: the node is linked at the tail. *)
Lemma inv_link l H g g' arr ws i a :
  inv l H g arr ws (M_add_link i a) → link_request a g = Ok g' →
  inv (l ++ [(a, (fp_squareValue, i))]) H g' arr ws (M_add_unlock i).
Proof.
  intros Hinv Hlink. inv_fields Hinv. simpl in *.
  destruct (Hmain i a eq_refl) as (Hi & Ha & Hnode & Hal & Hnoheld).
  pose proof (link_request_Ok_inv _ _ _ Hlink) as Hlt.
  destruct (link_request_repr fp_squareValue i a g l Hrepr Ha Hnode Hal Hlt)
    as (g2 & Hlink2 & Hrepr' & _ & _ & _ & _ & Hframe).
  rewrite Hlink in Hlink2. injection Hlink2 as <-.
  assert (∀ it, it ∈ l.*2 → ∃ d, it = (fp_squareValue, d) ∧ d < i) as Hold.
  { intros it (x & -> & Hx)%list_elem_of_fmap. destruct x as [q it].
    destruct (Hitems _ _ Hx) as (d & -> & _ & Hd). exists d. split; [done|lia]. }
  assert (∀ k q, holds ws k q → heap g' !! q = heap g !! q) as Hsame.
  { intros k q Hk. apply Hframe. by destruct (Hheld _ _ Hk) as (_ & ? & _). }
  split; simpl; try done.
  - intros q it [Hin|Hin]%elem_of_app.
    + destruct (Hitems _ _ Hin) as (d & -> & Hd & Hr).
      exists d. split; [done|]. split; [done|lia].
    + apply list_elem_of_singleton in Hin as [= -> ->].
      exists i. split; [done|]. split; [|lia].
      intros Hin. apply Hhandled in Hin. lia.
  - rewrite fmap_app. simpl. apply NoDup_app. split; [done|].
    split; [|apply NoDup_singleton].
    intros it Hit ->%list_elem_of_singleton.
    destruct (Hold _ Hit) as (d & [= <-] & Hd). lia.
  - intros k q Hk. destruct (Hheld _ _ Hk) as (Hq & Hql & Hs).
    split; [done|]. rewrite (Hsame _ _ Hk). split; [|done].
    rewrite fmap_app. simpl. intros [Hin|Hin]%elem_of_app; [done|].
    apply list_elem_of_singleton in Hin as ->. by eapply Hnoheld.
  - intros k q Hk. rewrite (Hsame _ _ (pends_holds _ _ _ Hk)).
    destruct (Hpend _ _ Hk) as (r & Hr & Hf & Hd & HdH & Hit).
    exists r. split_and!; try done; try lia.
    rewrite fmap_app. simpl. intros [Hin|Hin]%elem_of_app; [done|].
    apply list_elem_of_singleton in Hin. unfold item_of in Hin.
    injection Hin as _ Hin. lia.
  - intros k k' q q' r r' Hne Hk Hk'.
    rewrite (Hsame _ _ (pends_holds _ _ _ Hk)).
    rewrite (Hsame _ _ (pends_holds _ _ _ Hk')). eauto.
  - lia.
  - intros j Hj. apply Hhandled in Hj. lia.
  - intros j Hj. destruct (decide (j = i)) as [->|Hne].
    + right; left. rewrite fmap_app. simpl. apply elem_of_app. right.
      by apply list_elem_of_singleton.
    + destruct (Hcover j) as [?|[?|(k & q & r & Hk & Hr & Hd)]];
        [lia|by left|right; left|].
      * rewrite fmap_app. apply elem_of_app. by left.
      * right; right. exists k, q, r.
        rewrite (Hsame _ _ (pends_holds _ _ _ Hk)). done.
Qed.

(** Lines 150-151: a worker takes the head of the list. *)
Lemma inv_get l H g g' arr ws pc i w p :
  inv l H g arr ws pc → ws !! i = Some w → w_pc w = W_get →
  get_request g = Ok (p, g') →
  inv (tail l) H g' arr
    (<[i := {| w_pc := if decide (p ≠ NULL) then W_unlock_req
                       else W_quit_lock;
               a_request := p; running := running w |}]> ws) pc.
Proof.
  intros Hinv Hw Hpc Hget. destruct l as [|[a it] l0].
  - pose proof (inv_repr _ _ _ _ _ _ Hinv) as (_ & Hnum & _). simpl in Hnum.
    rewrite get_request_none in Hget by lia. injection Hget as <- <-.
    rewrite decide_False by (intros Hn; by apply Hn). simpl.
    eapply inv_worker_move; try done; rewrite Hpc; simpl; by eauto.
  - inv_fields Hinv.
    destruct (get_request_repr _ _ _ _ Hrepr) as (r & Hr & Hit & Hget2 & Hrepr').
    rewrite Hget in Hget2. injection Hget2 as -> ->.
    pose proof Hrepr as ((_ & Ha & _) & _).
    rewrite (decide_True (P := a ≠ NULL)) by done. simpl tail.
    pose proof (chain_NoDup _ _ _ (proj1 Hrepr)) as Hnda. simpl in Hnda.
    apply NoDup_cons in Hnda as [Hal0 _].
    simpl in Hnodup. apply NoDup_cons in Hnodup as [Hitl0 Hnodup].
    destruct (Hitems a it) as (d & -> & HdH & Hd); [by left|].
    assert (func r = fp_squareValue ∧ data r = d) as [Hf Hdr].
    { unfold item_of in Hit. by injection Hit. }
    assert (¬ holds ws i a) as Hnot.
    { intros (w0 & Hw0 & Hh & _). rewrite Hw in Hw0. injection Hw0 as <-.
      by rewrite Hpc in Hh. }
    assert (∀ k q, k ≠ i → holds ws k q → q ≠ a) as Hother.
    { intros k q _ Hk ->. destruct (Hheld _ _ Hk) as (_ & Hq & _).
      apply Hq. simpl. by left. }
    split; simpl; try done.
    + intros q it' Hin. apply Hitems with q. by right.
    + intros k q [(-> & _ & <-)|[Hne Hk]]%holds_insert.
      * split; [done|]. split; [done|]. by eauto.
      * destruct (Hheld _ _ Hk) as (? & Hq & ?). split; [done|].
        split; [|done]. intros Hin. apply Hq. simpl. by right.
    + intros k q [(-> & _ & <-)|[Hne Hk]]%pends_insert.
      * exists r. split_and!; try done; try lia.
        -- by rewrite Hdr.
        -- by rewrite Hit.
      * destruct (Hpend _ _ Hk) as (r' & ? & ? & ? & ? & Hnin).
        exists r'. split_and!; try done; try lia.
        intros Hin. apply Hnin. simpl. by right.
    + intros k k' q q' Hne [(-> & _ & <-)|[Hne1 Hk]]%holds_insert
        [(-> & _ & <-)|[Hne2 Hk']]%holds_insert; try done.
      * intros Heq. by eapply (Hother k' q').
      * by eapply (Hother k q).
      * by apply (Hhd k k').
    + intros k k' q q' r1 r2 Hne [(-> & _ & <-)|[Hne1 Hk]]%pends_insert
        [(-> & _ & <-)|[Hne2 Hk']]%pends_insert Hr1 Hr2; try done.
      * simpl in Hr1. rewrite Hr in Hr1. injection Hr1 as <-.
        destruct (Hpend _ _ Hk') as (r' & Hr' & Hf' & _ & _ & Hnin).
        rewrite Hr2 in Hr'. injection Hr' as <-.
        intros Heq. apply Hnin. simpl. apply elem_of_cons. left.
        unfold item_of. by rewrite Hf', <- Heq, Hdr.
      * simpl in Hr2. rewrite Hr in Hr2. injection Hr2 as <-.
        destruct (Hpend _ _ Hk) as (r' & Hr' & Hf' & _ & _ & Hnin).
        rewrite Hr1 in Hr'. injection Hr' as <-.
        intros Heq. apply Hnin. simpl. apply elem_of_cons. left.
        unfold item_of. by rewrite Hf', Heq, Hdr.
      * by apply (Hpd k k' q q').
    + intros i' a' Hi'. destruct (Hmain _ _ Hi') as (? & ? & ? & Hnin & Hno).
      split_and!; try done.
      * intros Hin. apply Hnin. simpl. by right.
      * intros k [(-> & _ & <-)|[Hne Hk]]%holds_insert.
        -- apply Hnin. simpl. by left.
        -- by eapply Hno.
    + intros j Hj. destruct (Hcover j Hj) as [?|[Hin|(k & q & r' & Hk & Hr' & Hd')]];
        [by left| |].
      * apply elem_of_cons in Hin as [[= ->]|Hin]; [|by right; left].
        right; right. exists i, a, r. split; [|done].
        apply pends_insert. by left.
      * right; right. exists k, q, r'. split; [|done].
        apply pends_insert. right. split; [|done].
        intros ->. apply Hnot. destruct Hk as (w0 & Hw0 & Hh & _).
        rewrite Hw in Hw0. injection Hw0 as <-. by rewrite Hpc in Hh.
    + intros k w0 Hk. destruct (decide (k = i)) as [->|Hne]; [by eauto|].
      rewrite lookup_insert_ne in Hk by done. by eauto.
    + intros k w0 Hk Hj. destruct (decide (k = i)) as [->|Hne].
      * apply (Hjoined _ _ Hw) in Hj. by rewrite Hpc in Hj.
      * rewrite lookup_insert_ne in Hk by done. by eauto.
Qed.

Lemma slot_Some_input H j v :
  j ∉ H → slot H j = Some v → input_array !! Z.to_nat j = Some v.
Proof.
  intros Hj. unfold slot. rewrite decide_False by done.
  by destruct (input_array !! Z.to_nat j).
Qed.

(** Line 159: the worker runs the function of the request it holds. *)
Lemma inv_handle l H g arr ws pc i w mem :
  inv l H g arr ws pc → ws !! i = Some w → w_pc w = W_handle →
  handle_request (a_request w) (heap g) arr = Ok mem →
  ∃ d, (d ∉ H) ∧ inv l ({[d]} ∪ H) g mem (<[i := goto W_free w]> ws) pc.
Proof.
  intros Hinv Hw Hpc Hhandle. inv_fields Hinv.
  assert (pends ws i (a_request w)) as Hpi.
  { exists w. by rewrite Hpc. }
  destruct (Hpend _ _ Hpi) as (r & Hr & Hf & Hd & HdH & Hit).
  destruct (Hheld _ _ (pends_holds _ _ _ Hpi)) as (Ha & _ & _).
  unfold handle_request in Hhandle.
  rewrite (proj2 (load_Some _ _ _) (conj Ha Hr)), Hf in Hhandle.
  simpl in Hhandle. unfold squareValue in Hhandle.
  rewrite decide_True in Hhandle by lia.
  rewrite Harr in Hhandle by lia.
  destruct (slot H (data r)) as [v|] eqn:Hslot; [|done].
  pose proof (slot_Some_input _ _ _ HdH Hslot) as Hin.
  destruct (decide (INT_MIN ≤ v * v ∧ v * v ≤ INT_MAX)); [|done].
  injection Hhandle as <-.
  assert (∀ k q, holds (<[i := goto W_free w]> ws) k q ↔ holds ws k q) as Hh.
  { intros k q. rewrite holds_insert. simpl. split.
    - intros [(-> & _ & <-)|[_ Hk]]; [|done]. by apply pends_holds.
    - intros Hk. destruct (decide (k = i)) as [->|Hne]; [|by right].
      left. destruct Hk as (w0 & Hw0 & _ & <-).
      rewrite Hw in Hw0. by injection Hw0 as <-. }
  assert (∀ k q, pends (<[i := goto W_free w]> ws) k q ↔ k ≠ i ∧ pends ws k q)
    as Hp.
  { intros k q. rewrite pends_insert. simpl. split.
    - intros [(_ & ? & _)|?]; done.
    - intros ?. by right. }
  exists (data r). split; [done|].
  split; try done.
  - intros q it Hq. destruct (Hitems _ _ Hq) as (d & -> & Hd' & Hr').
    exists d. split; [done|]. split; [|done].
    intros [->%elem_of_singleton|?]%elem_of_union; [|done].
    apply Hit. apply list_elem_of_fmap. exists (q, (fp_squareValue, data r)).
    split; [|done]. unfold item_of. by rewrite Hf.
  - intros k q Hk%Hh. eauto.
  - intros k q [Hne Hk]%Hp.
    destruct (Hpend _ _ Hk) as (r' & Hr' & Hf' & Hd' & HdH' & Hit').
    exists r'. split_and!; try done; try lia.
    intros [Heq%elem_of_singleton|?]%elem_of_union; [|done].
    by apply (Hpd k i q (a_request w) r' r).
  - intros k k' q q' Hne Hk%Hh Hk'%Hh. by apply (Hhd k k').
  - intros k k' q q' r1 r2 Hne [_ Hk]%Hp [_ Hk']%Hp. by apply (Hpd k k').
  - intros i' a' Hi'. destruct (Hmain _ _ Hi') as (? & ? & ? & ? & Hno).
    split_and!; try done. intros k Hk%Hh. by eapply Hno.
  - intros j [->%elem_of_singleton|Hj]%elem_of_union; [lia|by apply Hhandled].
  - intros j Hj. destruct (Hcover j Hj) as [?|[?|(k & q & r' & Hk & Hr' & Hd')]].
    + left. apply elem_of_union. by right.
    + by right; left.
    + destruct (decide (k = i)) as [->|Hne].
      * left. destruct Hk as (w0 & Hw0 & _ & <-).
        rewrite Hw in Hw0. injection Hw0 as <-.
        rewrite Hr in Hr'. injection Hr' as <-.
        apply elem_of_union. left. by apply elem_of_singleton.
      * right; right. exists k, q, r'. split; [|done]. by apply Hp.
  - by rewrite length_insert.
  - intros j Hj. destruct (decide (j = data r)) as [->|Hne].
    + rewrite list_lookup_insert_eq by lia.
      unfold slot. rewrite decide_True, Hin; [done|].
      apply elem_of_union. left. by apply elem_of_singleton.
    + rewrite list_lookup_insert_ne by lia. rewrite Harr by done.
      unfold slot. destruct (decide (j ∈ H)) as [HjH|HjH].
      * rewrite decide_True; [done|]. apply elem_of_union. by right.
      * rewrite decide_False; [done|].
        intros [?%elem_of_singleton|?]%elem_of_union; done.
  - intros k w0 Hk. destruct (decide (k = i)) as [->|Hne]; [by eauto|].
    rewrite lookup_insert_ne in Hk by done. by eauto.
  - intros k w0 Hk Hj. destruct (decide (k = i)) as [->|Hne].
    + apply (Hjoined _ _ Hw) in Hj. by rewrite Hpc in Hj.
    + rewrite lookup_insert_ne in Hk by done. by eauto.
Qed.

(** Line 161: the worker frees the request it holds. *)
Lemma inv_free l H g g' arr ws pc i w :
  inv l H g arr ws pc → ws !! i = Some w → w_pc w = W_free →
  free (a_request w) g = Ok g' →
  inv l H g' arr (<[i := goto W_relock w]> ws) pc.
Proof.
  intros Hinv Hw Hpc Hfree. inv_fields Hinv.
  assert (holds ws i (a_request w)) as Hhi.
  { exists w. by rewrite Hpc. }
  destruct (Hheld _ _ Hhi) as (Ha & Hal & Hlive).
  destruct (free_repr _ _ _ Hrepr Hal Ha Hlive) as (g2 & Hfree2 & Hrepr' & Hheap & _).
  rewrite Hfree in Hfree2. injection Hfree2 as <-.
  assert (∀ k q, holds (<[i := goto W_relock w]> ws) k q ↔ k ≠ i ∧ holds ws k q)
    as Hh.
  { intros k q. rewrite holds_insert. simpl. split.
    - intros [(_ & ? & _)|?]; done.
    - intros ?. by right. }
  assert (∀ k q, pends (<[i := goto W_relock w]> ws) k q ↔ pends ws k q)
    as Hp.
  { intros k q. rewrite pends_insert. simpl. split.
    - intros [(_ & ? & _)|[_ ?]]; done.
    - intros Hk. right. split; [|done]. intros ->.
      destruct Hk as (w0 & Hw0 & Hh0 & _). rewrite Hw in Hw0.
      injection Hw0 as <-. by rewrite Hpc in Hh0. }
  assert (∀ k q, k ≠ i → holds ws k q → heap g' !! q = heap g !! q) as Hsame.
  { intros k q Hne Hk. rewrite Hheap. apply lookup_delete_ne.
    intros Heq. by apply (Hhd i k (a_request w) q). }
  assert (∀ k q, pends ws k q → k ≠ i) as Hpne.
  { intros k q (w0 & Hw0 & Hh0 & _) ->. rewrite Hw in Hw0.
    injection Hw0 as <-. by rewrite Hpc in Hh0. }
  split; try done.
  - intros k q [Hne Hk]%Hh. rewrite (Hsame _ _ Hne Hk). eauto.
  - intros k q Hk%Hp.
    rewrite (Hsame _ _ (Hpne _ _ Hk) (pends_holds _ _ _ Hk)). eauto.
  - intros k k' q q' Hne [_ Hk]%Hh [_ Hk']%Hh. by apply (Hhd k k').
  - intros k k' q q' r1 r2 Hne Hk%Hp Hk'%Hp.
    rewrite (Hsame _ _ (Hpne _ _ Hk) (pends_holds _ _ _ Hk)).
    rewrite (Hsame _ _ (Hpne _ _ Hk') (pends_holds _ _ _ Hk')).
    by apply (Hpd k k').
  - intros i' a' Hi'. destruct (Hmain _ _ Hi') as (? & ? & Hnode & ? & Hno).
    split_and!; try done.
    + rewrite Hheap, lookup_delete_ne; [done|].
      intros Heq. apply (Hno i). by rewrite <- Heq.
    + intros k [_ Hk]%Hh. by eapply Hno.
  - intros j Hj. destruct (Hcover j Hj) as [?|[?|(k & q & r' & Hk & Hr' & Hd')]];
      [by left|by right; left|].
    right; right. exists k, q, r'. split; [by apply Hp|].
    rewrite (Hsame _ _ (Hpne _ _ Hk) (pends_holds _ _ _ Hk)). done.
  - intros k w0 Hk. destruct (decide (k = i)) as [->|Hne]; [by eauto|].
    rewrite lookup_insert_ne in Hk by done. by eauto.
  - intros k w0 Hk Hj. destruct (decide (k = i)) as [->|Hne].
    + apply (Hjoined _ _ Hw) in Hj. by rewrite Hpc in Hj.
    + rewrite lookup_insert_ne in Hk by done. by eauto.
Qed.

(** Main moves between two program points with the same counters. *)
Lemma inv_main_move l H g arr ws pc pc' :
  inv l H g arr ws pc →
  submitted_count pc' = submitted_count pc →
  main_node pc' = main_node pc →
  created_count pc ≤ created_count pc' ≤ 3 →
  (∀ k w, ws !! k = Some w → Z.of_nat k < joined_count pc' →
          w_pc w = W_done) →
  inv l H g arr ws pc'.
Proof.
  intros Hinv Hsub Hnode Hcr Hj.
  pose proof (inv_created_range _ _ _ _ _ _ Hinv) as Hr.
  eapply inv_frame; try done; [|lia].
  intros k w Hk. apply (inv_created _ _ _ _ _ _ Hinv) in Hk. lia.
Qed.

(** A wakeup inside [pthread_cond_wait]. *)
Lemma inv_wake l H s s' pc i :
  inv l H (glob s) (array s) (workers s) pc → wake i s = Some s' →
  inv l H (glob s') (array s') (workers s') pc.
Proof.
  intros Hinv. unfold wake.
  destruct (workers s !! i) as [w|] eqn:Hw; [|done].
  destruct (decide (w_pc w = W_sleeping)) as [Hpc|]; [|done].
  intros [= <-]. simpl.
  eapply inv_worker_move; try done; rewrite Hpc; simpl; by eauto.
Qed.

Lemma wake_main_pc i s s' : wake i s = Some s' → main_pc s' = main_pc s.
Proof. unfold wake. repeat case_match; try done. by intros [= <-]. Qed.

Lemma inv_broadcast l H s pc :
  inv l H (glob s) (array s) (workers s) pc →
  inv l H (glob (broadcast s)) (array (broadcast s))
      (workers (broadcast s)) pc.
Proof.
  intros Hinv. simpl.
  set (f := λ w, if decide (w_pc w = W_sleeping) then goto W_woken w else w).
  assert (∀ w, hold_of (w_pc (f w)) = hold_of (w_pc w) ∧
               a_request (f w) = a_request w ∧
               (w_pc w = W_done → f w = w)) as Hf.
  { intros w. unfold f. destruct (decide (w_pc w = W_sleeping)) as [Hs|]; [|done].
    simpl. rewrite Hs. done. }
  pose proof (inv_created_range _ _ _ _ _ _ Hinv) as Hr.
  eapply inv_frame; try done.
  - intros k a (w' & Hw' & Hh & Ha). rewrite lookup_fmap in Hw'.
    destruct (workers s !! k) as [w|] eqn:Hw; [|done]. injection Hw' as <-.
    destruct (Hf w) as (Hh' & Ha' & _). exists w. by rewrite <- Hh', <- Ha'.
  - intros k a. split.
    + intros (w' & Hw' & Hh & Ha). rewrite lookup_fmap in Hw'.
      destruct (workers s !! k) as [w|] eqn:Hw; [|done]. injection Hw' as <-.
      destruct (Hf w) as (Hh' & Ha' & _). exists w. by rewrite <- Hh', <- Ha'.
    + intros (w & Hw & Hh & Ha). exists (f w). rewrite lookup_fmap, Hw.
      destruct (Hf w) as (Hh' & Ha' & _). by rewrite Hh', Ha'.
  - intros k w' Hw'. rewrite lookup_fmap in Hw'.
    destruct (workers s !! k) as [w|] eqn:Hw; [|done].
    by eapply inv_created.
  - intros k w' Hw' Hj. rewrite lookup_fmap in Hw'.
    destruct (workers s !! k) as [w|] eqn:Hw; [|done]. injection Hw' as <-.
    pose proof (inv_joined _ _ _ _ _ _ Hinv _ _ Hw Hj) as Hd.
    destruct (Hf w) as (_ & _ & Hid). by rewrite Hid.
Qed.

Lemma worker_step_inv i s s' :
  sys_inv s → worker_step i s = Some (Ok s') → sys_inv s'.
Proof.
  intros (l & H & Hinv). unfold worker_step.
  destruct (workers s !! i) as [w|] eqn:Hw; [|done].
  destruct (w_pc w) eqn:Hpc; unfold next_state, blocked, undefined.
  4: { (* W_get *)
    destruct (get_request (glob s)) as [[p g']| |] eqn:Hget; try done.
    intros [= <-]. exists (tail l), H. simpl. by eapply inv_get. }
  all: repeat case_match; try done; intros [= <-];
    try (exists l, H; simpl; eapply inv_worker_move;
         [exact Hinv|exact Hw|rewrite Hpc; reflexivity|simpl; by eauto
         |rewrite Hpc; discriminate]).
  - (* W_handle *)
    destruct (inv_handle _ _ _ _ _ _ _ _ _ Hinv Hw Hpc ltac:(eassumption))
      as (d & _ & Hinv').
    by exists l, ({[d]} ∪ H).
  - (* W_free *)
    exists l, H. simpl. by eapply inv_free.
Qed.

Lemma main_step_inv oracle s s' :
  sys_inv s → main_step oracle s = Some (Ok s') → sys_inv s'.
Proof.
  intros (l & H & Hinv). unfold main_step.
  pose proof (inv_count _ _ _ _ _ _ Hinv) as Hcount.
  pose proof (inv_created_range _ _ _ _ _ _ Hinv) as Hcr.
  pose proof (inv_array_len _ _ _ _ _ _ Hinv) as Hlen.
  destruct (main_pc s) eqn:Hpc; unfold next_state, blocked, undefined;
    simpl in Hcount, Hcr.
  - (* M_init *)
    intros [= <-]. exists l, H. simpl.
    main_move inv_main_move.
  - (* M_create *)
    destruct (decide (i < NUM_HANDLER_THREADS)) as [Hlt|Hge]; intros [= <-].
    + exists l, H. simpl. by apply inv_create.
    + exists l, H. simpl.
      main_move inv_main_move.
  - (* M_add *)
    rewrite Hlen.
    destruct (decide (i < Z.of_nat 13)) as [Hlt|Hge].
    + destruct (decide (oracle = NULL)); [done|].
      destruct (decide (heap (glob s) !! oracle = None)); [|done].
      intros [= <-]. exists l, H. simpl. apply inv_alloc; [done|lia|done..].
    + intros [= <-]. exists l, H. simpl.
      main_move inv_main_move.
  - (* M_add_lock *)
    destruct (lock (request_mutex s) Main); [|done]. intros [= <-].
    exists l, H. simpl.
    main_move inv_main_move.
  - (* M_add_link *)
    destruct (link_request a (glob s)) as [g'| |] eqn:Hlink; try done.
    intros [= <-]. eexists _, H. simpl. by eapply inv_link.
  - (* M_add_unlock *)
    destruct (unlock (request_mutex s) Main); try done. intros [= <-].
    exists l, H. simpl.
    main_move inv_main_move.
  - (* M_add_signal *)
    assert (∀ s0, inv l H (glob s0) (array s0) (workers s0) (M_add_signal i) →
                  inv l H (glob s0) (array s0) (workers s0) (M_delay i)) as Hgo.
    { intros s0 Hinv0. main_move inv_main_move. }
    destruct (decide (sleeping s = ∅)).
    { intros [= <-]. exists l, H. simpl. by apply Hgo. }
    destruct (decide (0 ≤ oracle)); [|done].
    destruct (wake (Z.to_nat oracle) s) as [s1|] eqn:Hwake; [|done].
    intros [= <-]. exists l, H. simpl. apply Hgo. by eapply inv_wake.
  - (* M_delay *)
    intros [= <-]. exists l, H. simpl.
    main_move inv_main_move.
  - (* M_quit_lock *)
    destruct (lock (quit_mutex s) Main); [|done]. intros [= <-].
    exists l, H. simpl.
    main_move inv_main_move.
  - (* M_quit_set *)
    intros [= <-]. exists l, H. simpl.
    apply (inv_glob_eq l H (glob s)); [|done..]. main_move inv_main_move.
  - (* M_quit_unlock *)
    destruct (unlock (quit_mutex s) Main); try done. intros [= <-].
    exists l, H. simpl.
    main_move inv_main_move.
  - (* M_broadcast *)
    intros [= <-]. exists l, H.
    change (inv l H (glob (broadcast s)) (array (broadcast s))
                (workers (broadcast s)) (M_join 0)).
    apply inv_broadcast. main_move inv_main_move.
  - (* M_join *)
    destruct (decide (i < NUM_HANDLER_THREADS)) as [Hlt|Hge].
    + destruct (workers s !! Z.to_nat i) as [w|] eqn:Hw; [|done].
      destruct (decide (w_pc w = W_done)) as [Hd|]; [|done].
      intros [= <-]. exists l, H. simpl.
      main_move inv_main_move.
      intros k w0 Hk Hj. destruct (decide (Z.of_nat k < i)) as [Hki|Hki].
      * by eapply (inv_joined _ _ _ _ _ _ Hinv).
      * assert (k = Z.to_nat i) as -> by lia. congruence.
    + intros [= <-]. exists l, H. simpl.
      main_move inv_main_move.
      intros k w0 Hk Hj. eapply (inv_joined _ _ _ _ _ _ Hinv); [done|].
      simpl. unfold NUM_HANDLER_THREADS in Hge. lia.
  - (* M_print *)
    intros [= <-]. exists l, H. simpl.
    main_move inv_main_move.
    intros k w0 Hk Hj. by eapply (inv_joined _ _ _ _ _ _ Hinv).
  - done.
Qed.

Lemma step_inv lab s s' :
  sys_inv s → step lab s = Some (Ok s') → sys_inv s'.
Proof.
  intros Hinv. destruct lab as [oracle|i|i]; simpl.
  - by apply main_step_inv.
  - by apply worker_step_inv.
  - destruct (wake i s) as [s1|] eqn:Hwake; [|done].
    intros [= <-]. destruct Hinv as (l & H & Hinv).
    exists l, H. rewrite (wake_main_pc _ _ _ Hwake). by eapply inv_wake.
Qed.

Lemma init_system_inv : sys_inv init_system.
Proof.
  exists [], ∅. split; simpl; try done.
  - intros a it Hin. by apply elem_of_nil in Hin.
  - apply NoDup_nil_2.
  - intros k a (w & Hw & _). by rewrite lookup_empty in Hw.
  - intros k a (w & Hw & _). by rewrite lookup_empty in Hw.
  - intros k k' a a' _ (w & Hw & _). by rewrite lookup_empty in Hw.
  - intros j Hj. lia.
  - intros j Hj. unfold slot. rewrite decide_False by apply not_elem_of_empty.
    by destruct (input_array !! Z.to_nat j).
Qed.

Lemma run_schedule_inv sched s s' :
  sys_inv s → run_schedule sched s = Some (Ok s') → sys_inv s'.
Proof.
  revert s. induction sched as [|lab sched IH]; simpl; intros s Hinv.
  - by intros [= <-].
  - destruct (step lab s) as [[s1| |]|] eqn:Hstep; try done.
    apply IH. by eapply step_inv.
Qed.

(** Once the workers are joined, nothing is pending in a worker's hands. *)
Lemma joined_no_pends l H g arr ws pc k a :
  inv l H g arr ws pc → joined_count pc = 3 → ¬ pends ws k a.
Proof.
  intros Hinv Hj (w & Hw & Hh & _).
  pose proof (inv_created _ _ _ _ _ _ Hinv _ _ Hw) as Hk.
  pose proof (inv_created_range _ _ _ _ _ _ Hinv) as Hr.
  rewrite (inv_joined _ _ _ _ _ _ Hinv _ _ Hw) in Hh; [done|lia].
Qed.

Lemma inv_slots l H g arr ws pc (j : nat) v :
  inv l H g arr ws pc → input_array !! j = Some v →
  arr !! j = Some (if decide (Z.of_nat j ∈ H) then v * v else v).
Proof.
  intros Hinv Hin.
  assert (j < 13)%nat as Hj by (apply lookup_lt_Some in Hin; simpl in Hin; lia).
  pose proof (inv_array _ _ _ _ _ _ Hinv (Z.of_nat j)) as Harr.
  rewrite Nat2Z.id in Harr. rewrite Harr by lia.
  unfold slot. rewrite Nat2Z.id, Hin. by destruct (decide (Z.of_nat j ∈ H)).
Qed.

Lemma inv_drained l H g arr ws pc :
  inv l H g arr ws pc → joined_count pc = 3 → submitted_count pc = 13 →
  num_requests g = 0 →
  arr = (λ v, v * v) <$> input_array.
Proof.
  intros Hinv Hj Hs Hnum.
  assert (l = []) as ->.
  { destruct (inv_repr _ _ _ _ _ _ Hinv) as (_ & Hlen & _).
    destruct l; [done|]. simpl in Hlen. lia. }
  assert (∀ j, 0 ≤ j < 13 → j ∈ H) as Hall.
  { intros j Hj13.
    destruct (inv_cover _ _ _ _ _ _ Hinv j) as [?|[Hin|(k & a & r & Hk & _)]];
      [lia|done| |].
    - by apply elem_of_nil in Hin.
    - by destruct (joined_no_pends _ _ _ _ _ _ k a Hinv Hj). }
  apply list_eq. intros j. rewrite list_lookup_fmap.
  destruct (input_array !! j) as [v|] eqn:Hin.
  - rewrite (inv_slots _ _ _ _ _ _ _ _ Hinv Hin). simpl.
    rewrite decide_True; [done|]. apply Hall.
    apply lookup_lt_Some in Hin. simpl in Hin. lia.
  - apply lookup_ge_None in Hin. simpl in Hin. apply lookup_ge_None.
    rewrite (inv_array_len _ _ _ _ _ _ Hinv). lia.
Qed.

(** * The worker loop and the demo *)

(** C1. The worker loop does not drain the queue on shutdown.  In the run
    where main submits the thirteen requests and sets [quit] before the
    workers run, worker 0 handles one request and then, with [quit = 1]
    and 12 requests pending, leaves its loop, so drain on shutdown does
    not hold of the runs; the other workers do the same, main joins the
    three and returns, and 10 requests were never handled: their slots of
    the array are not squared. *)
Theorem worker_exits_with_pending_requests :
  (∃ s s',
     run_schedule early_quit_prefix init_system = Some (Ok s) ∧
     quit (glob s) = 1 ∧ num_requests (glob s) = 12 ∧
     leaves_loop 0 s s' ∧ num_requests (glob s') = 12) ∧
  ¬ drain_on_shutdown ∧
  (∃ s,
     run_schedule early_quit_schedule init_system = Some (Ok s) ∧
     main_pc s = M_done ∧
     w_pc <$> workers s !! 0%nat = Some W_done ∧
     w_pc <$> workers s !! 1%nat = Some W_done ∧
     w_pc <$> workers s !! 2%nat = Some W_done ∧
     num_requests (glob s) = 10 ∧
     contents (glob s) =
       Some ((λ i, (100 + i, (fp_squareValue, i))) <$> seqZ 3 10) ∧
     array s = [1; 144; 454670329; 12; 31312; 1; 13; 3; 5; 7; 8; 9; 943]).
Proof.
  assert (∃ s s',
     run_schedule early_quit_prefix init_system = Some (Ok s) ∧
     quit (glob s) = 1 ∧ num_requests (glob s) = 12 ∧
     leaves_loop 0 s s' ∧ num_requests (glob s') = 12) as Hleave.
  { eexists. eexists.
    split; [vm_compute; reflexivity|].
    split; [reflexivity|]. split; [reflexivity|].
    split.
    - eexists. eexists.
      split; [vm_compute; reflexivity|]. split; [reflexivity|].
      split; [vm_compute; reflexivity|].
      split; [vm_compute; reflexivity|reflexivity].
    - reflexivity. }
  split; [exact Hleave|]. split.
  - intros Hdrain.
    destruct Hleave as (s & s' & Hrun & _ & Hnum & Hloop & _).
    destruct (Hdrain _ _ _ _ Hrun Hloop) as [Hzero _]. lia.
  - eexists.
    split; [vm_compute; reflexivity|].
    repeat (split; [vm_compute; reflexivity|]). reflexivity.
Qed.

(** C7, as stated, fails: squaring every element of the input does not
    give the listed array (the listed fifth element, 980440944, is not
    the square of 31312), and the run of the demo in which every request
    is handled before main sets [quit] ends with another array. *)
Lemma listed_squares_differ :
  square_each input_array
    ≠ Ok [1; 144; 454670329; 144; 980440944; 1; 169; 9; 25; 49; 64; 81;
          889249] ∧
  ∃ s, run_schedule drained_schedule init_system = Some (Ok s) ∧
       main_pc s = M_done ∧ num_requests (glob s) = 0 ∧
       array s ≠ [1; 144; 454670329; 144; 980440944; 1; 169; 9; 25; 49;
                  64; 81; 889249].
Proof.
  split; [vm_compute; discriminate|].
  eexists. split; [vm_compute; reflexivity|].
  split; [reflexivity|]. split; [reflexivity|]. vm_compute. discriminate.
Qed.


(** C7, amended. Squaring every element of the input array gives
    [1; 144; 454670329; 144; 980441344; 1; 169; 9; 25; 49; 64; 81; 889249],
    and in every run of the demo, once main is past the joins and no
    request is left in the list, the array is that array of squares. *)
Theorem square_in_place (sched : list label) (s : system) :
  run_schedule sched init_system = Some (Ok s) →
  main_pc s = M_print ∨ main_pc s = M_done →
  num_requests (glob s) = 0 →
  square_each input_array
    = Ok [1; 144; 454670329; 144; 980441344; 1; 169; 9; 25; 49; 64; 81;
          889249] ∧
  array s = [1; 144; 454670329; 144; 980441344; 1; 169; 9; 25; 49; 64;
             81; 889249].
Proof.
  intros Hrun Hpc Hnum. split; [vm_compute; reflexivity|].
  destruct (run_schedule_inv _ _ _ init_system_inv Hrun) as (l & H & Hinv).
  rewrite (inv_drained _ _ _ _ _ _ Hinv); [reflexivity| | |done];
    by destruct Hpc as [-> | ->].
Qed.

Lemma square_in_place_witness :
  ∃ s, run_schedule drained_schedule init_system = Some (Ok s) ∧
       main_pc s = M_done ∧ num_requests (glob s) = 0 ∧
       array s = [1; 144; 454670329; 144; 980441344; 1; 169; 9; 25; 49;
                  64; 81; 889249].
Proof.
  eexists. split; [vm_compute; reflexivity|].
  split; [reflexivity|]. split; [reflexivity|].
  eapply (square_in_place drained_schedule).
  - vm_compute. reflexivity.
  - right. reflexivity.
  - reflexivity.
Defined.

(** * More on the list operations *)

Lemma queue_repr_unique s l1 l2 :
  queue_repr s l1 → queue_repr s l2 → l1 = l2.
Proof. intros (Hc1 & _) (Hc2 & _). by eapply chain_functional. Qed.

(** X1. [add_request] followed by [get_request] on a well-formed queue:
    the request returned is the old head when the queue was not empty,
    and the request just added when it was; the queue then holds the
    rest followed by the new request and the counter is back to what it
    was.  On the empty queue the pair is a round trip: the list is empty
    again, with [requests] and [last_request] null, and the node handed
    back carries the function and the argument that were submitted. *)
Theorem add_then_get (f : fnptr) (d a : ptr) (s : state)
    (l : list (ptr * item)) :
  queue_repr s l → a ≠ NULL → heap s !! a = None →
  num_requests s < INT_MAX →
  ∃ s1 s2 p it,
    add_request f d a s = Ok s1 ∧ get_request s1 = Ok (p, s2) ∧
    head (l ++ [(a, (f, d))]) = Some (p, it) ∧
    (∃ r, load (heap s2) p = Some r ∧ item_of r = it) ∧
    queue_repr s2 (tail (l ++ [(a, (f, d))])) ∧
    num_requests s2 = num_requests s ∧
    (l = [] → p = a ∧ it = (f, d) ∧ requests s2 = NULL ∧
              last_request s2 = NULL ∧ num_requests s2 = 0).
Proof.
  intros Hrepr Ha Hfresh Hlt.
  destruct (add_request_repr f d a s l Hrepr Ha Hfresh Hlt)
    as (s1 & Hadd & Hrepr1 & Hnum1 & _).
  destruct (l ++ [(a, (f, d))]) as [|[p it] l'] eqn:Hl.
  { by destruct l. }
  destruct (get_request_repr _ _ _ _ Hrepr1) as (r & Hr & Hit & Hget & Hrepr2).
  pose proof Hrepr1 as ((_ & Hp & _) & _).
  eexists s1, _, p, it. split; [done|]. split; [exact Hget|].
  split; [done|]. split.
  { exists r. split; [|done]. by apply load_Some. }
  split; [done|]. split; [simpl; lia|].
  intros ->. simpl in Hl. injection Hl as <- <- <-.
  destruct Hrepr2 as (Hc & Hn & Hlast & _). simpl in *.
  split; [done|]. split; [done|]. split; [done|]. split; [done|lia].
Qed.

Lemma add_then_get_witness :
  ∃ s1 s2,
    add_request fp_squareValue 4 100 initial = Ok s1 ∧
    get_request s1 = Ok (100, s2) ∧
    load (heap s2) 100 = Some (Request fp_squareValue 4 NULL) ∧
    requests s2 = NULL ∧ last_request s2 = NULL ∧ num_requests s2 = 0.
Proof.
  destruct (add_then_get fp_squareValue 4 100 initial [])
    as (s1 & s2 & p & it & Hadd & Hget & _ & (r & Hr & Hit) & _ & _ & Hempty).
  - apply contents_repr. split; [reflexivity|].
    split; [vm_compute; intuition discriminate|reflexivity].
  - discriminate.
  - reflexivity.
  - reflexivity.
  - destruct (Hempty eq_refl) as (-> & -> & Hreq & Hlast & Hnum).
    exists s1, s2. split; [done|]. split; [done|]. split; [|done].
    rewrite Hr. f_equal. vm_compute in Hadd. injection Hadd as <-.
    vm_compute in Hget. injection Hget as <-. vm_compute in Hr.
    by injection Hr as <-.
Defined.

(** Dequeuing as many times as the list is long hands out every request
    of the list, in order. *)
Lemma run_gets l : ∀ c,
  queue_repr (globals c) l →
  ∃ c', run (replicate (length l) OpGet) c = Some (Ok c') ∧
        dequeued c' = dequeued c ++ l.*2 ∧
        submitted c' = submitted c ∧
        owned c' = reverse (l.*1) ++ owned c ∧
        heap (globals c') = heap (globals c) ∧
        queue_repr (globals c') [].
Proof.
  induction l as [|[a it] l IH]; intros c Hrepr; simpl.
  - exists c. rewrite app_nil_r. done.
  - destruct (get_request_repr _ _ _ _ Hrepr) as (r & Hr & Hit & Hget & Hrepr').
    pose proof Hrepr as ((_ & Ha & _) & _).
    rewrite Hget.
    rewrite decide_False by done. simpl.
    rewrite (proj2 (load_Some _ _ _) (conj Ha Hr)).
    match goal with |- ∃ c', run _ ?c1 = _ ∧ _ => destruct (IH c1) as
      (c' & Hrun & Hdeq & Hsub & Hown & Hheap & Hempty) end; [done|].
    exists c'. simpl in *. split; [done|].
    rewrite Hdeq, Hsub, Hown, Hheap, Hit, reverse_cons, <- !app_assoc. done.
Qed.

(** X2. Nothing is lost in the list: from any configuration reached by
    the operations, [num_requests] further calls of [get_request] hand
    out all the requests still pending, so that the items dequeued are
    then exactly the items submitted, in submission order, and the list
    is empty. *)
Theorem drain_returns_all (ops : list op) (c : config) :
  run ops init_config = Some (Ok c) →
  ∃ c', run (replicate (Z.to_nat (num_requests (globals c))) OpGet) c
          = Some (Ok c') ∧
        dequeued c' = submitted c ∧ submitted c' = submitted c ∧
        num_requests (globals c') = 0 ∧
        requests (globals c') = NULL ∧ last_request (globals c') = NULL.
Proof.
  intros Hrun.
  destruct (run_inv _ _ _ init_config_inv Hrun) as (l & Hrepr & _ & _ & Hlog).
  destruct (run_gets l c Hrepr) as (c' & Hgets & Hdeq & Hsub & _ & _ & Hempty).
  pose proof Hrepr as (_ & Hnum & _). rewrite Hnum, Nat2Z.id.
  exists c'. split; [done|]. rewrite Hdeq, <- Hlog. split; [done|].
  split; [done|]. destruct Hempty as (Hc & Hn & Hlast & _). simpl in *.
  done.
Qed.

Lemma drain_returns_all_witness :
  ∃ c c', run sample_ops init_config = Some (Ok c) ∧
          run (replicate (Z.to_nat (num_requests (globals c))) OpGet) c
            = Some (Ok c') ∧
          dequeued c' = submitted c ∧ submitted c' = submitted c ∧
          num_requests (globals c') = 0 ∧
          requests (globals c') = NULL ∧ last_request (globals c') = NULL.
Proof.
  eexists. 
  assert (∀ c, run sample_ops init_config = Some (Ok c) →
            ∃ c', run sample_ops init_config = Some (Ok c) ∧
                  run (replicate (Z.to_nat (num_requests (globals c))) OpGet) c
                    = Some (Ok c') ∧
                  dequeued c' = submitted c ∧ submitted c' = submitted c ∧
                  num_requests (globals c') = 0 ∧
                  requests (globals c') = NULL ∧
                  last_request (globals c') = NULL) as Hw.
  { intros c Hrun.
    destruct (drain_returns_all sample_ops c Hrun) as (c' & Hc').
    exists c'. by split. }
  apply Hw. vm_compute. reflexivity.
Defined.

(** ** The live nodes *)

Lemma exec_accounted o c c' l :
  queue_repr (globals c) l → NoDup (l.*1 ++ owned c) →
  (∀ p, p ∈ owned c → p ≠ NULL ∧ is_Some (heap (globals c) !! p)) →
  accounted c l → op_allowed o c → exec o c = Ok c' →
  ∃ l', queue_repr (globals c') l' ∧ accounted c' l'.
Proof.
  intros Hrepr Hnd Hown Hacc Hallow Hexec.
  destruct o as [f d a| |p]; simpl in *.
  - destruct (add_request f d a (globals c)) as [s'| |] eqn:Hadd; [|done..].
    injection Hexec as <-.
    destruct (add_request_Ok_inv _ _ _ _ _ Hadd) as [Ha Hlt].
    destruct Hallow as [?|Hfresh]; [done|].
    destruct (add_request_repr f d a _ _ Hrepr Ha Hfresh Hlt)
      as (s2 & Hadd2 & Hrepr' & _ & _ & _ & Hnew & Hframe).
    rewrite Hadd in Hadd2. injection Hadd2 as <-.
    exists (l ++ [(a, (f, d))]). split; [done|]. intros q. simpl.
    rewrite fmap_app, elem_of_app. simpl. rewrite list_elem_of_singleton.
    destruct (decide (q = a)) as [->|Hqa].
    { rewrite Hnew. split; [by left; right|by eauto]. }
    destruct (decide (q ∈ l.*1)) as [Hql|Hql].
    { split; [by left; left|]. intros _.
      apply (chain_live _ _ _ _ (proj1 Hrepr')).
      rewrite fmap_app. apply elem_of_app. by left. }
    rewrite (Hframe q Hqa Hql). rewrite (Hacc q). tauto.
  - destruct l as [|[a it] l0].
    + pose proof Hrepr as (_ & Hnum & _). simpl in Hnum.
      rewrite get_request_none in Hexec by lia.
      rewrite decide_True in Hexec by done. injection Hexec as <-.
      by exists [].
    + destruct (get_request_repr _ _ _ _ Hrepr) as (r & Hr & Hit & Hget & Hrepr').
      pose proof Hrepr as ((_ & Ha & _) & _).
      rewrite Hget in Hexec. rewrite decide_False in Hexec by done.
      simpl in Hexec. rewrite (proj2 (load_Some _ _ _) (conj Ha Hr)) in Hexec.
      injection Hexec as <-. exists l0. split; [done|]. intros q. simpl.
      rewrite (Hacc q). simpl. rewrite !elem_of_cons. tauto.
  - assert (p ∉ l.*1) as Hpl.
    { apply NoDup_app in Hnd as (_ & Hdisj & _). intros Hin. by eapply Hdisj. }
    destruct (Hown _ Hallow) as [Hp Hlive].
    destruct (free_repr p _ _ Hrepr Hpl Hp Hlive) as (s' & Hfree & Hrepr' & Hheap & _).
    rewrite Hfree in Hexec. injection Hexec as <-.
    exists l. split; [done|]. intros q. simpl. rewrite Hheap.
    rewrite list_elem_of_filter. destruct (decide (q = p)) as [->|Hqp].
    + rewrite lookup_delete_eq. split; [by intros [? ?]|].
      intros [?|[? _]]; done.
    + rewrite lookup_delete_ne by done. rewrite (Hacc q). tauto.
Qed.

Lemma run_accounted ops : ∀ c l c',
  config_inv c → queue_repr (globals c) l → accounted c l →
  run ops c = Some (Ok c') →
  ∃ l', queue_repr (globals c') l' ∧ accounted c' l'.
Proof.
  induction ops as [|o ops IH]; simpl; intros c l c' Hinv Hrepr Hacc Hrun.
  - injection Hrun as <-. by exists l.
  - destruct (decide (op_allowed o c)) as [Hallow|]; [|done].
    destruct (exec o c) as [c1| |] eqn:Hexec; [|done..].
    pose proof (exec_inv _ _ _ Hinv Hallow Hexec) as Hinv1.
    destruct Hinv as (l0 & Hrepr0 & Hnd & Hown & _).
    rewrite (queue_repr_unique _ _ _ Hrepr0 Hrepr) in Hnd.
    destruct (exec_accounted _ _ _ _ Hrepr Hnd Hown Hacc Hallow Hexec)
      as (l1 & Hrepr1 & Hacc1).
    by eapply IH.
Qed.

(** X3. No request node leaks: in every configuration reached by the
    operations, the live nodes are exactly the nodes of the list and the
    requests handed out by [get_request] and not yet freed; once the
    list is empty and the callers have freed what they were handed, no
    node is live. *)
Theorem no_leak (ops : list op) (c : config) :
  run ops init_config = Some (Ok c) →
  (∃ l, queue_repr (globals c) l ∧
        ∀ q, is_Some (heap (globals c) !! q) ↔ q ∈ l.*1 ∨ q ∈ owned c) ∧
  (num_requests (globals c) = 0 → owned c = [] → heap (globals c) = ∅).
Proof.
  intros Hrun.
  destruct (run_accounted ops init_config [] c) as (l & Hrepr & Hacc).
  - apply init_config_inv.
  - apply contents_repr. split; [reflexivity|].
    split; [vm_compute; intuition discriminate|reflexivity].
  - intros q. simpl. rewrite lookup_empty. split; [by intros [? ?]|].
    intros [Hq|Hq]; by apply elem_of_nil in Hq.
  - done.
  - split; [by exists l|]. intros Hnum Hown.
    assert (l = []) as ->.
    { destruct Hrepr as (_ & Hlen & _). destruct l; [done|].
      simpl in Hlen. lia. }
    apply map_empty. intros q. apply eq_None_not_Some. rewrite (Hacc q).
    rewrite Hown. intros [Hq|Hq]; by apply elem_of_nil in Hq.
Qed.

Lemma no_leak_witness :
  ∃ c, run (sample_ops ++ [OpGet; OpGet; OpFree 100; OpFree 101;
                           OpFree 102]) init_config = Some (Ok c) ∧
       num_requests (globals c) = 0 ∧ owned c = [] ∧
       heap (globals c) = ∅.
Proof.
  eexists. split; [vm_compute; reflexivity|].
  split; [reflexivity|]. split; [reflexivity|].
  eapply (no_leak (sample_ops ++ [OpGet; OpGet; OpFree 100; OpFree 101;
                                  OpFree 102])).
  - vm_compute. reflexivity.
  - reflexivity.
  - reflexivity.
Defined.

(** ** No undefined behaviour in the list *)

Lemma link_request_fields a s s' :
  link_request a s = Ok s' →
  num_requests s' = num_requests s + 1 ∧ quit s' = quit s.
Proof.
  unfold link_request. destruct (decide (num_requests s = 0)).
  - destruct (decide (num_requests s + 1 ≤ INT_MAX)); [|done].
    by intros [= <-].
  - destruct (load (heap s) (last_request s)); [|done].
    destruct (decide (num_requests s + 1 ≤ INT_MAX)); [|done].
    by intros [= <-].
Qed.

Lemma get_request_fields s p s' :
  get_request s = Ok (p, s') →
  num_requests s' ≤ num_requests s ∧ quit s' = quit s ∧ heap s' = heap s.
Proof.
  unfold get_request. destruct (decide (num_requests s > 0)).
  - destruct (load (heap s) (requests s)); [|done].
    intros [= <- <-]. simpl. split; [lia|done].
  - intros [= <- <-]. split; [lia|done].
Qed.

Lemma free_fields p s s' :
  free p s = Ok s' →
  num_requests s' = num_requests s ∧ quit s' = quit s ∧
  requests s' = requests s ∧ last_request s' = last_request s.
Proof.
  unfold free. destruct (decide (p = NULL)); [by intros [= <-]|].
  destruct (heap s !! p); [|done]. by intros [= <-].
Qed.

Lemma exec_counter o c c' :
  exec o c = Ok c' →
  num_requests (globals c') ≤ num_requests (globals c) + 1.
Proof.
  destruct o as [f d a| |p]; simpl.
  - destruct (add_request f d a (globals c)) as [s'| |] eqn:Hadd; [|done..].
    intros [= <-]. simpl. unfold add_request in Hadd.
    destruct (decide (a = NULL)); [done|].
    apply link_request_fields in Hadd as [-> _]. simpl. lia.
  - destruct (get_request (globals c)) as [[p s']| |] eqn:Hget; [|done..].
    apply get_request_fields in Hget as (Hle & _).
    destruct (decide (p = NULL)); [intros [= <-]; simpl; lia|].
    destruct (load (heap s') p); [|done]. intros [= <-]. simpl. lia.
  - destruct (free p (globals c)) as [s'| |] eqn:Hfree; [|done..].
    apply free_fields in Hfree as (Heq & _). intros [= <-]. simpl. lia.
Qed.

Lemma run_defined ops : ∀ c,
  config_inv c →
  num_requests (globals c) + Z.of_nat (length ops) ≤ INT_MAX →
  run ops c ≠ Some Fault.
Proof.
  induction ops as [|o ops IH]; simpl; intros c Hinv Hlen; [done|].
  destruct (decide (op_allowed o c)) as [Hallow|]; [|done].
  pose proof (exec_defined o c Hinv Hallow ltac:(lia)) as Hdef.
  destruct (exec o c) as [c1| |] eqn:Hexec; [|done..].
  apply IH; [by eapply exec_inv|].
  apply exec_counter in Hexec. lia.
Qed.

(** X4. The list operations never run into undefined behaviour: a run of
    fewer than 2^31 allowed operations from the empty queue never
    dereferences a null or dangling pointer, never frees a block that is
    not live, and never overflows the counter. *)
Theorem list_never_undefined (ops : list op) :
  Z.of_nat (length ops) ≤ INT_MAX →
  run ops init_config ≠ Some Fault.
Proof.
  intros Hlen. apply run_defined; [apply init_config_inv|]. simpl. lia.
Qed.

Lemma list_never_undefined_witness :
  run sample_ops init_config ≠ Some Fault.
Proof.
  apply (list_never_undefined sample_ops). vm_compute. discriminate.
Defined.

(** X5. [squareValue] squares in place exactly the [int]s whose square is
    an [int]: on a slot holding [v] it stores [v * v] there when
    [-46340 <= v <= 46340] and overflows (undefined) otherwise; a
    pointer outside the array is undefined as well. *)
Theorem squareValue_range :
  (∀ (mem : list Z) (i : nat) v, mem !! i = Some v →
     squareValue (Z.of_nat i) mem =
       if decide (-46340 ≤ v ∧ v ≤ 46340) then Ok (<[i := v * v]> mem)
       else Fault) ∧
  (∀ (mem : list Z) arg, arg < 0 ∨ Z.of_nat (length mem) ≤ arg →
     squareValue arg mem = Fault).
Proof.
  split.
  - intros mem i v Hv. unfold squareValue.
    rewrite decide_True by lia. rewrite Nat2Z.id, Hv.
    unfold INT_MIN, INT_MAX.
    destruct (decide (-46340 ≤ v ∧ v ≤ 46340)) as [Hin|Hout].
    + rewrite decide_True; [done|]. nia.
    + rewrite decide_False; [done|]. nia.
  - intros mem arg Harg. unfold squareValue.
    destruct (decide (0 ≤ arg)); [|done].
    rewrite (proj2 (lookup_ge_None mem (Z.to_nat arg))); [done|lia].
Qed.

Lemma squareValue_range_witness :
  squareValue 1 [3; 46340; 46341] = Ok [3; 2147395600; 46341] ∧
  squareValue 2 [3; 46340; 46341] = Fault ∧
  squareValue 3 [3; 46340; 46341] = Fault.
Proof.
  destruct squareValue_range as [Hin Hout].
  split; [|split].
  - apply (Hin [3; 46340; 46341] 1%nat 46340). reflexivity.
  - apply (Hin [3; 46340; 46341] 2%nat 46341). reflexivity.
  - apply (Hout [3; 46340; 46341] 3). right. simpl. lia.
Defined.

(** X6. [handle_request] touches the slot its request points to and
    nothing else: the array keeps its length and every other slot keeps
    its value; with [test_func] the array is unchanged. *)
Theorem handle_request_frame (a : ptr) (h : gmap Z request)
    (mem mem' : list Z) (r : request) :
  load h a = Some r → handle_request a h mem = Ok mem' →
  length mem' = length mem ∧
  (∀ j : nat, Z.of_nat j ≠ data r → mem' !! j = mem !! j) ∧
  (func r = fp_test_func → mem' = mem).
Proof.
  intros Hr. unfold handle_request. rewrite Hr.
  destruct (func r); simpl.
  - unfold test_func. by intros [= <-].
  - unfold squareValue. destruct (decide (0 ≤ data r)); [|done].
    destruct (mem !! Z.to_nat (data r)) as [v|]; [|done].
    destruct (decide (INT_MIN ≤ v * v ∧ v * v ≤ INT_MAX)); [|done].
    intros [= <-]. split; [by rewrite length_insert|]. split; [|done].
    intros j Hj. apply list_lookup_insert_ne. lia.
Qed.

Lemma handle_request_frame_witness :
  ∃ mem', handle_request 100 (heap two_requests) [5; 6; 7] = Ok mem' ∧
          length mem' = 3%nat ∧ mem' !! 1%nat = Some 6 ∧
          mem' !! 2%nat = Some 7.
Proof.
  eexists. split; [vm_compute; reflexivity|].
  destruct (handle_request_frame 100 (heap two_requests) [5; 6; 7]
              [25; 6; 7] (Request fp_squareValue 0 101))
    as (Hlen & Hother & _).
  - vm_compute. reflexivity.
  - vm_compute. reflexivity.
  - split; [exact Hlen|]. split.
    + rewrite (Hother 1%nat); [reflexivity|discriminate].
    + rewrite (Hother 2%nat); [reflexivity|discriminate].
Defined.

(** * The mutexes and the flag in the demo *)

Lemma aux_worker_step s s' i w w' :
  aux s → workers s !! i = Some w →
  workers s' = <[i := w']> (workers s) →
  main_pc s' = main_pc s → quit (glob s') = quit (glob s) →
  mutex_step (request_mutex s) (request_mutex s')
             (w_req (w_pc w)) (w_req (w_pc w')) (Worker i) →
  mutex_step (quit_mutex s) (quit_mutex s')
             (w_quit (w_pc w)) (w_quit (w_pc w')) (Worker i) →
  (w_pc w' ≠ W_lock → running w' = 0 →
   (w_pc w ≠ W_lock ∧ running w = 0) ∨ quit (glob s) = 1) →
  aux s'.
Proof.
  intros Haux Hw Hws Hpc Hquit Hreq Hqm' Hrunning. aux_fields Haux.
  split; rewrite ?Hws, ?Hpc, ?Hquit; try done.
  - intros k w0 Hk Hb. destruct (decide (k = i)) as [->|Hne].
    + rewrite lookup_insert_eq in Hk. injection Hk as <-.
      destruct Hreq as [[-> Hbb]|[(_ & -> & _)|(_ & _ & Hb')]]; [|done|congruence].
      apply (Hrw _ _ Hw). congruence.
    + rewrite lookup_insert_ne in Hk by done.
      pose proof (Hrw _ _ Hk Hb) as Hm.
      destruct Hreq as [[-> _]|[(Hn & _ & _)|(Hs & _ & _)]]; [done|congruence|].
      rewrite Hm in Hs. by injection Hs.
  - intros k Hk. destruct (decide (k = i)) as [->|Hne].
    + exists w'. rewrite lookup_insert_eq. split; [done|].
      destruct Hreq as [[Hm Hbb]|[(_ & _ & Hb')|(_ & Hm & _)]]; [|done|congruence].
      rewrite Hm in Hk. destruct (Hro _ Hk) as (w0 & Hw0 & Hb0).
      rewrite Hw in Hw0. injection Hw0 as <-. congruence.
    + rewrite lookup_insert_ne by done. apply Hro.
      destruct Hreq as [[Hm _]|[(_ & Hm & _)|(_ & Hm & _)]]; congruence.
  - rewrite Hrm.
    destruct Hreq as [[-> _]|[(Hn & -> & _)|(Hs & -> & _)]]; [done|..];
      split; congruence.
  - intros k w0 Hk Hb. destruct (decide (k = i)) as [->|Hne].
    + rewrite lookup_insert_eq in Hk. injection Hk as <-.
      destruct Hqm' as [[-> Hbb]|[(_ & -> & _)|(_ & _ & Hb')]]; [|done|congruence].
      apply (Hqw _ _ Hw). congruence.
    + rewrite lookup_insert_ne in Hk by done.
      pose proof (Hqw _ _ Hk Hb) as Hm.
      destruct Hqm' as [[-> _]|[(Hn & _ & _)|(Hs & _ & _)]]; [done|congruence|].
      rewrite Hm in Hs. by injection Hs.
  - intros k Hk. destruct (decide (k = i)) as [->|Hne].
    + exists w'. rewrite lookup_insert_eq. split; [done|].
      destruct Hqm' as [[Hm Hbb]|[(_ & _ & Hb')|(_ & Hm & _)]]; [|done|congruence].
      rewrite Hm in Hk. destruct (Hqo _ Hk) as (w0 & Hw0 & Hb0).
      rewrite Hw in Hw0. injection Hw0 as <-. congruence.
    + rewrite lookup_insert_ne by done. apply Hqo.
      destruct Hqm' as [[Hm _]|[(_ & Hm & _)|(_ & Hm & _)]]; congruence.
  - rewrite Hqm.
    destruct Hqm' as [[-> _]|[(Hn & -> & _)|(Hs & -> & _)]]; [done|..];
      split; congruence.
  - intros k w0 Hk Hpc0 Hr0. destruct (decide (k = i)) as [->|Hne].
    + rewrite lookup_insert_eq in Hk. injection Hk as <-.
      destruct (Hrunning Hpc0 Hr0) as [[Hpcw Hrw0]|?]; [|done].
      by apply (Hrun _ _ Hw).
    + rewrite lookup_insert_ne in Hk by done. by apply (Hrun _ _ Hk).
  - intros k Hk. destruct (decide (k = i)) as [->|Hne].
    + rewrite lookup_insert_eq. by eauto.
    + rewrite lookup_insert_ne by done. by apply Hexist.
  - intros k w0 Hk. destruct (decide (k = i)) as [->|Hne]; [by eauto|].
    rewrite lookup_insert_ne in Hk by done. by eauto.
Qed.

Lemma lock_Some m t m' : lock m t = Some m' → m = None ∧ m' = Some t.
Proof. destruct m; simpl; [done|]. by intros [= <-]. Qed.

Lemma unlock_Ok m t m' : unlock m t = Ok m' → m = Some t ∧ m' = None.
Proof. unfold unlock. destruct (decide (m = Some t)); [|done]. by intros [= <-]. Qed.

Lemma get_request_quit s p s' : get_request s = Ok (p, s') → quit s' = quit s.
Proof.
  unfold get_request. destruct (decide (num_requests s > 0)).
  - destruct (load (heap s) (requests s)); [|done]. by intros [= <- <-].
  - by intros [= <- <-].
Qed.

Lemma free_quit p s s' : free p s = Ok s' → quit s' = quit s.
Proof.
  unfold free. destruct (decide (p = NULL)); [by intros [= <-]|].
  destruct (heap s !! p); [|done]. by intros [= <-].
Qed.

Lemma link_request_quit a s s' : link_request a s = Ok s' → quit s' = quit s.
Proof.
  unfold link_request. destruct (decide (num_requests s = 0)).
  - destruct (decide (num_requests s + 1 ≤ INT_MAX)); [|done].
    by intros [= <-].
  - destruct (load (heap s) (last_request s)); [|done].
    destruct (decide (num_requests s + 1 ≤ INT_MAX)); [|done].
    by intros [= <-].
Qed.

Lemma worker_step_aux i s s' :
  aux s → worker_step i s = Some (Ok s') → aux s'.
Proof.
  intros Haux. unfold worker_step.
  destruct (workers s !! i) as [w|] eqn:Hw; [|done].
  pose proof (aux_quit_flag _ Haux) as Hflag.
  destruct (w_pc w) eqn:Hpc; unfold next_state, blocked, undefined.
  4: { destruct (get_request (glob s)) as [[p g']| |] eqn:Hget; try done.
       intros [= <-].
       eapply (aux_worker_step s _ i w);
         [exact Haux|exact Hw|reflexivity|reflexivity| | | |]; simpl.
       - by eapply get_request_quit.
       - rewrite Hpc. simpl. left. split; [done|]. by case_decide.
       - rewrite Hpc. simpl. left. split; [done|]. by case_decide.
       - intros _ Hr. left. rewrite Hpc. done. }
  all: repeat case_match; try done; intros [= <-]; mutex_facts lock_Some unlock_Ok;
    (eapply (aux_worker_step s _ i w);
     [ exact Haux | exact Hw | reflexivity | reflexivity
     | first [ reflexivity | by eapply free_quit ]
     | solve_mutex_step Hpc | solve_mutex_step Hpc
     | solve_running Hpc ]).
Qed.

Lemma aux_main_step s s' :
  aux s → workers s' = workers s →
  quit (glob s') = (if quit_written (main_pc s') then 1 else 0) →
  (quit (glob s) = 1 → quit (glob s') = 1) →
  created_count (main_pc s') = created_count (main_pc s) →
  mutex_step (request_mutex s) (request_mutex s')
             (m_req (main_pc s)) (m_req (main_pc s')) Main →
  mutex_step (quit_mutex s) (quit_mutex s')
             (m_quit (main_pc s)) (m_quit (main_pc s')) Main →
  aux s'.
Proof.
  intros Haux Hws Hflag' Hmono Hcreated Hreq Hqm'. aux_fields Haux.
  split; rewrite ?Hws, ?Hcreated; try done.
  - intros k w Hk Hb. pose proof (Hrw _ _ Hk Hb) as Hm.
    destruct Hreq as [[-> _]|[(Hn & _ & _)|(Hs & _ & _)]]; [done|congruence..].
  - intros k Hk. apply Hro.
    destruct Hreq as [[Hm _]|[(_ & Hm & _)|(_ & Hm & _)]]; congruence.
  - destruct Hreq as [[-> ->]|[(Hn & -> & ->)|(Hs & -> & ->)]]; [done|done|].
    split; done.
  - intros k w Hk Hb. pose proof (Hqw _ _ Hk Hb) as Hm.
    destruct Hqm' as [[-> _]|[(Hn & _ & _)|(Hs & _ & _)]]; [done|congruence..].
  - intros k Hk. apply Hqo.
    destruct Hqm' as [[Hm _]|[(_ & Hm & _)|(_ & Hm & _)]]; congruence.
  - destruct Hqm' as [[-> ->]|[(Hn & -> & ->)|(Hs & -> & ->)]]; [done|done|].
    split; done.
  - intros k w Hk Hpc Hr. apply Hmono. by eapply Hrun.
Qed.

(** Line 215. *)
Lemma aux_create s i :
  aux s → main_pc s = M_create i → i < NUM_HANDLER_THREADS →
  aux (set_main_pc (M_create (i + 1))
         (set_worker (Z.to_nat i)
            {| w_pc := W_lock; a_request := NULL; running := 0 |} s)).
Proof.
  intros Haux Hpc Hlt. unfold NUM_HANDLER_THREADS in Hlt. aux_fields Haux.
  rewrite Hpc in *. simpl in *.
  assert (workers s !! Z.to_nat i = None) as Hnew.
  { destruct (workers s !! Z.to_nat i) as [w|] eqn:Hw; [|done].
    apply Hkeys in Hw. lia. }
  assert (∀ k w, <[Z.to_nat i := {| w_pc := W_lock; a_request := NULL;
                                    running := 0 |}]> (workers s) !! k = Some w →
                 w_pc w ≠ W_lock → workers s !! k = Some w) as Hold.
  { intros k w Hk Hne. destruct (decide (k = Z.to_nat i)) as [->|Hki].
    - rewrite lookup_insert_eq in Hk. injection Hk as <-. done.
    - by rewrite lookup_insert_ne in Hk. }
  split; simpl; try done.
  - intros k w Hk Hb. apply (Hrw k w); [|done]. apply Hold; [done|].
    intros Hpcw. by rewrite Hpcw in Hb.
  - intros k Hk. destruct (Hro _ Hk) as (w & Hw & Hb). exists w.
    split; [|done]. rewrite lookup_insert_ne; [done|]. congruence.
  - intros k w Hk Hb. apply (Hqw k w); [|done]. apply Hold; [done|].
    intros Hpcw. by rewrite Hpcw in Hb.
  - intros k Hk. destruct (Hqo _ Hk) as (w & Hw & Hb). exists w.
    split; [|done]. rewrite lookup_insert_ne; [done|]. congruence.
  - intros k w Hk Hne Hr. apply (Hrun k w); [|done..]. by apply Hold.
  - intros k Hk. destruct (decide (k = Z.to_nat i)) as [->|Hki].
    + rewrite lookup_insert_eq. by eauto.
    + rewrite lookup_insert_ne by done. apply Hexist. lia.
  - intros k w Hk. destruct (decide (k = Z.to_nat i)) as [->|Hki]; [lia|].
    rewrite lookup_insert_ne in Hk by done. apply Hkeys in Hk. lia.
  - lia.
Qed.

Lemma aux_wake i s s' : aux s → wake i s = Some s' → aux s'.
Proof.
  intros Haux. unfold wake.
  destruct (workers s !! i) as [w|] eqn:Hw; [|done].
  destruct (decide (w_pc w = W_sleeping)) as [Hpc|]; [|done].
  intros [= <-].
  eapply (aux_worker_step s _ i w);
    [exact Haux|exact Hw|reflexivity|reflexivity|reflexivity| | |].
  - solve_mutex_step Hpc.
  - solve_mutex_step Hpc.
  - simpl. intros _ Hr. left. by rewrite Hpc.
Qed.

Lemma aux_broadcast s : aux s → aux (broadcast s).
Proof.
  intros Haux. aux_fields Haux.
  set (f := λ w, if decide (w_pc w = W_sleeping) then goto W_woken w else w).
  assert (∀ w, w_req (w_pc (f w)) = w_req (w_pc w) ∧
               w_quit (w_pc (f w)) = w_quit (w_pc w) ∧
               running (f w) = running w ∧
               (w_pc (f w) ≠ W_lock → w_pc w ≠ W_lock)) as Hf.
  { intros w. unfold f. destruct (decide (w_pc w = W_sleeping)) as [Hs|]; [|done].
    simpl. rewrite Hs. done. }
  assert (∀ k w', (f <$> workers s) !! k = Some w' →
                  ∃ w, workers s !! k = Some w ∧ w' = f w) as Hlook.
  { intros k w' Hk. rewrite lookup_fmap in Hk.
    destruct (workers s !! k) as [w|]; [|done]. injection Hk as <-. eauto. }
  split; simpl; fold f; try done.
  - intros k w' (w & Hw & ->)%Hlook Hb. destruct (Hf w) as (Hr & _).
    apply (Hrw _ _ Hw). congruence.
  - intros k Hk. destruct (Hro _ Hk) as (w & Hw & Hb). exists (f w).
    rewrite lookup_fmap, Hw. destruct (Hf w) as (Hr & _). split; [done|congruence].
  - intros k w' (w & Hw & ->)%Hlook Hb. destruct (Hf w) as (_ & Hq & _).
    apply (Hqw _ _ Hw). congruence.
  - intros k Hk. destruct (Hqo _ Hk) as (w & Hw & Hb). exists (f w).
    rewrite lookup_fmap, Hw. destruct (Hf w) as (_ & Hq & _). split; [done|congruence].
  - intros k w' (w & Hw & ->)%Hlook Hne Hr. destruct (Hf w) as (_ & _ & Hrn & Hl).
    apply (Hrun _ _ Hw); [by apply Hl|congruence].
  - intros k Hk. rewrite lookup_fmap. destruct (Hexist k Hk) as [w ->]. by eauto.
  - intros k w' (w & Hw & ->)%Hlook. by eauto.
Qed.

Lemma main_step_aux oracle s s' :
  aux s → main_step oracle s = Some (Ok s') → aux s'.
Proof.
  intros Haux. unfold main_step.
  pose proof (aux_quit_flag _ Haux) as Hflag.
  pose proof (aux_created _ Haux) as Hcr.
  destruct (main_pc s) eqn:Hpc; unfold next_state, blocked, undefined;
    simpl in Hflag, Hcr.
  - intros [= <-]. eapply aux_main_step; [exact Haux|..]; simpl; rewrite ?Hpc;
      simpl; try done; unfold mutex_step; by left.
  - destruct (decide (i < NUM_HANDLER_THREADS)) as [Hlt|Hge]; intros [= <-].
    + by apply aux_create.
    + unfold NUM_HANDLER_THREADS in Hge.
      eapply aux_main_step; [exact Haux|..]; simpl; rewrite ?Hpc;
        simpl; try done; try lia; unfold mutex_step; by left.
  - repeat case_match; try done; intros [= <-];
      (eapply aux_main_step; [exact Haux|..]; simpl; rewrite ?Hpc;
       simpl; try done; unfold mutex_step; by left).
  - destruct (lock (request_mutex s) Main) eqn:Hlock; [|done].
    intros [= <-]. apply lock_Some in Hlock as [Hm ->].
    eapply aux_main_step; [exact Haux|..]; simpl; rewrite ?Hpc;
      simpl; try done; unfold mutex_step; [by right; left|by left].
  - destruct (link_request a (glob s)) as [g'| |] eqn:Hlink; try done.
    intros [= <-]. pose proof (link_request_quit _ _ _ Hlink) as Hq.
    eapply aux_main_step; [exact Haux|..]; simpl; rewrite ?Hpc;
      simpl; try done; try congruence; unfold mutex_step; by left.
  - destruct (unlock (request_mutex s) Main) eqn:Hun; try done.
    intros [= <-]. apply unlock_Ok in Hun as [Hm ->].
    eapply aux_main_step; [exact Haux|..]; simpl; rewrite ?Hpc;
      simpl; try done; unfold mutex_step; [by right; right|by left].
  - assert (∀ s0, aux s0 → main_pc s0 = M_add_signal i →
                  quit (glob s0) = 0 →
                  aux (set_main_pc (M_delay i) s0)) as Hgo.
    { intros s0 Haux0 Hpc0 Hq0.
      eapply aux_main_step; [exact Haux0|..]; simpl; rewrite ?Hpc0;
        simpl; try done; try lia; unfold mutex_step; by left. }
    destruct (decide (sleeping s = ∅)).
    { intros [= <-]. by apply Hgo. }
    destruct (decide (0 ≤ oracle)); [|done].
    destruct (wake (Z.to_nat oracle) s) as [s1|] eqn:Hwake; [|done].
    intros [= <-]. apply Hgo.
    + by eapply aux_wake.
    + by rewrite (wake_main_pc _ _ _ Hwake).
    + unfold wake in Hwake. repeat case_match; try done.
      by injection Hwake as <-.
  - intros [= <-]. eapply aux_main_step; [exact Haux|..]; simpl; rewrite ?Hpc;
      simpl; try done; unfold mutex_step; by left.
  - destruct (lock (quit_mutex s) Main) eqn:Hlock; [|done].
    intros [= <-]. apply lock_Some in Hlock as [Hm ->].
    eapply aux_main_step; [exact Haux|..]; simpl; rewrite ?Hpc;
      simpl; try done; unfold mutex_step; [by left|by right; left].
  - intros [= <-]. eapply aux_main_step; [exact Haux|..]; simpl; rewrite ?Hpc;
      simpl; try done; unfold mutex_step; by left.
  - destruct (unlock (quit_mutex s) Main) eqn:Hun; try done.
    intros [= <-]. apply unlock_Ok in Hun as [Hm ->].
    eapply aux_main_step; [exact Haux|..]; simpl; rewrite ?Hpc;
      simpl; try done; unfold mutex_step; [by left|by right; right].
  - intros [= <-].
    change (aux (set_main_pc (M_join 0) (broadcast s))).
    eapply aux_main_step; [by apply aux_broadcast|..]; simpl; rewrite ?Hpc;
      simpl; try done; unfold mutex_step; by left.
  - repeat case_match; try done; intros [= <-];
      (eapply aux_main_step; [exact Haux|..]; simpl; rewrite ?Hpc;
       simpl; try done; unfold mutex_step; by left).
  - intros [= <-]. eapply aux_main_step; [exact Haux|..]; simpl; rewrite ?Hpc;
      simpl; try done; unfold mutex_step; by left.
  - done.
Qed.

Lemma step_aux lab s s' : aux s → step lab s = Some (Ok s') → aux s'.
Proof.
  intros Haux. destruct lab as [oracle|i|i]; simpl.
  - by apply main_step_aux.
  - by apply worker_step_aux.
  - destruct (wake i s) as [s1|] eqn:Hwake; [|done].
    intros [= <-]. by eapply aux_wake.
Qed.

Lemma init_system_aux : aux init_system.
Proof.
  split; simpl; try done.
  - intros k Hk. lia.
Qed.

Lemma run_schedule_aux sched s s' :
  aux s → run_schedule sched s = Some (Ok s') → aux s'.
Proof.
  revert s. induction sched as [|lab sched IH]; simpl; intros s Haux.
  - by intros [= <-].
  - destruct (step lab s) as [[s1| |]|] eqn:Hstep; try done.
    apply IH. by eapply step_aux.
Qed.

(** X7. A worker leaves its loop only after shutdown was asked: in every
    run of the demo, when the test of [while (running)] fails in a
    worker, [quit] is 1 and main has executed line 236. *)
Theorem worker_exits_only_after_quit (sched : list label) (s s' : system)
    (i : nat) :
  run_schedule sched init_system = Some (Ok s) →
  leaves_loop i s s' →
  quit (glob s) = 1 ∧ quit_written (main_pc s) = true.
Proof.
  intros Hrun (w & w' & Hw & Hpc & Hstep & Hw' & Hpc').
  pose proof (run_schedule_aux _ _ _ init_system_aux Hrun) as Haux.
  assert (running w = 0) as Hr.
  { simpl in Hstep. unfold worker_step in Hstep. rewrite Hw, Hpc in Hstep.
    destruct (decide (running w ≠ 0)) as [Hne|Heq]; [|lia].
    injection Hstep as <-. simpl in Hw'. rewrite lookup_insert_eq in Hw'.
    injection Hw' as <-. done. }
  assert (quit (glob s) = 1) as Hq.
  { apply (aux_running _ Haux _ _ Hw); [by rewrite Hpc|done]. }
  split; [done|]. rewrite (aux_quit_flag _ Haux) in Hq.
  by destruct (quit_written (main_pc s)).
Qed.

(** * The order of the list and the live nodes in the demo *)

Lemma ext_frame l g g' ws ws' pc pc' :
  ext l g ws pc → heap g' = heap g →
  (∀ k q, holds ws' k q ↔ holds ws k q) →
  submitted_count pc' = submitted_count pc →
  main_node pc' = main_node pc →
  ext l g' ws' pc'.
Proof.
  intros [Hfifo Hlen Hlive] Hheap Hholds Hsub Hnode.
  split; rewrite ?Hsub, ?Hnode, ?Hheap; try done.
  intros q. rewrite (Hlive q). by setoid_rewrite Hholds.
Qed.

Lemma holds_move ws i w w' :
  ws !! i = Some w →
  (hold_of (w_pc w') = NoHold ↔ hold_of (w_pc w) = NoHold) →
  a_request w' = a_request w ∨ hold_of (w_pc w) = NoHold →
  ∀ k q, holds (<[i := w']> ws) k q ↔ holds ws k q.
Proof.
  intros Hw Hhold Hreq k q. rewrite holds_insert. split.
  - intros [(-> & Hh & Ha)|[_ Hk]]; [|done].
    exists w. split; [done|]. rewrite <- Hhold. split; [done|].
    destruct Hreq as [<-|Hno]; [done|]. by apply Hhold in Hno.
  - intros (w0 & Hw0 & Hh & Ha). destruct (decide (k = i)) as [->|Hne].
    + left. rewrite Hw in Hw0. injection Hw0 as <-.
      split; [done|]. split; [by rewrite Hhold|].
      destruct Hreq as [->|Hno]; [done|]. by rewrite Hno in Hh.
    + right. split; [done|]. by exists w0.
Qed.

Lemma full_worker_move l H s i w w' s' :
  full l H s → workers s !! i = Some w →
  glob s' = glob s → array s' = array s → main_pc s' = main_pc s →
  workers s' = <[i := w']> (workers s) →
  hold_of (w_pc w') = hold_of (w_pc w) →
  a_request w' = a_request w ∨ hold_of (w_pc w) = NoHold →
  w_pc w ≠ W_done →
  full l H s'.
Proof.
  intros [Hinv Hext] Hw Hg Ha Hm Hws Hhold Hreq Hnd. unfold full.
  rewrite Hg, Ha, Hm, Hws. split.
  - by eapply inv_worker_move.
  - eapply ext_frame; try done. eapply holds_move; try done.
    by rewrite Hhold.
Qed.

Lemma seqZ_tail k (n : nat) :
  tail (seqZ k (Z.of_nat (S n))) = seqZ (k + 1) (Z.of_nat n).
Proof. rewrite seqZ_cons by lia. simpl. f_equal; lia. Qed.

(** Lines 150-151. *)
Lemma ext_get l H g g' arr ws pc i w p :
  inv l H g arr ws pc → ext l g ws pc →
  ws !! i = Some w → w_pc w = W_get →
  get_request g = Ok (p, g') →
  ext (tail l) g'
    (<[i := {| w_pc := if decide (p ≠ NULL) then W_unlock_req
                       else W_quit_lock;
               a_request := p; running := running w |}]> ws) pc.
Proof.
  intros Hinv [Hfifo Hlen Hlive] Hw Hpc Hget.
  pose proof (inv_repr _ _ _ _ _ _ Hinv) as Hrepr.
  assert (∀ q, ¬ holds ws i q) as Hnot.
  { intros q (w0 & Hw0 & Hh & _). rewrite Hw in Hw0. injection Hw0 as <-.
    by rewrite Hpc in Hh. }
  destruct l as [|[a it] l0].
  - pose proof Hrepr as (_ & Hnum & _). simpl in Hnum.
    rewrite get_request_none in Hget by lia. injection Hget as <- <-.
    rewrite decide_False by (intros Hn; by apply Hn). simpl.
    eapply ext_frame; try done.
    apply (holds_move ws i w); [done|by rewrite Hpc|right; by rewrite Hpc].
  - destruct (get_request_repr _ _ _ _ Hrepr) as (r & Hr & Hit & Hget2 & Hrepr').
    rewrite Hget in Hget2. injection Hget2 as -> ->.
    pose proof Hrepr as ((_ & Ha & _) & _).
    rewrite (decide_True (P := a ≠ NULL)) by done. simpl tail.
    split; simpl.
    + simpl in Hfifo. rewrite seqZ_cons in Hfifo by lia.
      simpl in Hfifo. injection Hfifo as _ Hfifo.
      etrans; [exact Hfifo|]. f_equal. f_equal; lia.
    + simpl in Hlen. lia.
    + intros q. rewrite (Hlive q). simpl. rewrite elem_of_cons.
      setoid_rewrite holds_insert. simpl. split.
      * intros [[->|?]|[[k Hk]|?]].
        -- right; left. exists i. by left.
        -- by left.
        -- right; left. exists k. right. split; [|done].
           intros ->. by eapply Hnot.
        -- by right; right.
      * intros [?|[[k [(-> & _ & <-)|[_ Hk]]]|?]].
        -- left. by right.
        -- left. by left.
        -- right; left. by exists k.
        -- by right; right.
Qed.

(** Line 161. *)
Lemma ext_free l H g g' arr ws pc i w :
  inv l H g arr ws pc → ext l g ws pc →
  ws !! i = Some w → w_pc w = W_free →
  free (a_request w) g = Ok g' →
  ext l g' (<[i := goto W_relock w]> ws) pc.
Proof.
  intros Hinv [Hfifo Hlen Hlive] Hw Hpc Hfree.
  assert (holds ws i (a_request w)) as Hhi.
  { exists w. by rewrite Hpc. }
  destruct (inv_holds _ _ _ _ _ _ Hinv _ _ Hhi) as (Ha & Hal & Hlv).
  destruct (free_repr _ _ _ (inv_repr _ _ _ _ _ _ Hinv) Hal Ha Hlv)
    as (g2 & Hfree2 & _ & Hheap & _).
  rewrite Hfree in Hfree2. injection Hfree2 as <-.
  split; try done.
  intros q. rewrite Hheap. setoid_rewrite holds_insert. simpl.
  destruct (decide (q = a_request w)) as [->|Hq].
  - rewrite lookup_delete_eq. split; [by intros [? ?]|].
    intros [?|[[k [(_ & ? & _)|[Hne Hk]]]|[j Hj]]]; [done|done| |].
    + by destruct (inv_holds_distinct _ _ _ _ _ _ Hinv i k (a_request w)
                     (a_request w)).
    + destruct (inv_main_node _ _ _ _ _ _ Hinv _ _ Hj) as (_ & _ & _ & _ & Hno).
      by destruct (Hno i).
  - rewrite lookup_delete_ne by done. rewrite (Hlive q). split.
    + intros [?|[[k Hk]|?]]; [by left| |by right; right].
      right; left. exists k. right. split; [|done].
      intros ->. apply Hq. destruct Hk as (w0 & Hw0 & _ & <-).
      rewrite Hw in Hw0. by injection Hw0 as <-.
    + intros [?|[[k [(_ & ? & _)|[_ Hk]]]|?]];
        [by left|done|right; left; by exists k|by right; right].
Qed.

Lemma worker_step_full i s s' l H :
  full l H s → worker_step i s = Some (Ok s') → ∃ l' H', full l' H' s'.
Proof.
  intros Hfull. pose proof Hfull as [Hinv Hext]. unfold worker_step.
  destruct (workers s !! i) as [w|] eqn:Hw; [|done].
  destruct (w_pc w) eqn:Hpc; unfold next_state, blocked, undefined.
  4: { (* W_get *)
    destruct (get_request (glob s)) as [[p g']| |] eqn:Hget; try done.
    intros [= <-]. exists (tail l), H. split; simpl.
    - by eapply inv_get.
    - by eapply ext_get. }
  all: repeat case_match; try done; intros [= <-];
    try (exists l, H; eapply (full_worker_move l H s i w);
         [exact Hfull|exact Hw|reflexivity|reflexivity|reflexivity
         |reflexivity|rewrite Hpc; reflexivity|simpl; by eauto
         |rewrite Hpc; discriminate]).
  - (* W_handle *)
    destruct (inv_handle _ _ _ _ _ _ _ _ _ Hinv Hw Hpc ltac:(eassumption))
      as (d & _ & Hinv').
    exists l, ({[d]} ∪ H). split; [done|]. simpl.
    eapply ext_frame; try done.
    apply (holds_move _ i w); [done|by rewrite Hpc|by left].
  - (* W_free *)
    exists l, H. split; simpl.
    + by eapply inv_free.
    + by eapply ext_free.
Qed.

Lemma full_main_move l H s s' :
  full l H s →
  heap (glob s') = heap (glob s) → requests (glob s') = requests (glob s) →
  last_request (glob s') = last_request (glob s) →
  num_requests (glob s') = num_requests (glob s) →
  array s' = array s → workers s' = workers s →
  submitted_count (main_pc s') = submitted_count (main_pc s) →
  main_node (main_pc s') = main_node (main_pc s) →
  created_count (main_pc s) ≤ created_count (main_pc s') ≤ 3 →
  (∀ k w, workers s !! k = Some w →
          Z.of_nat k < joined_count (main_pc s') → w_pc w = W_done) →
  full l H s'.
Proof.
  intros [Hinv Hext] Hh Hr Hl Hn Ha Hws Hsub Hnode Hcr Hj. unfold full.
  rewrite Ha, Hws. split.
  - apply (inv_glob_eq l H (glob s)); try done.
    by eapply inv_main_move.
  - eapply ext_frame; try done.
Qed.

Lemma full_wake l H s s' i :
  full l H s → wake i s = Some s' → full l H s'.
Proof.
  intros Hfull. unfold wake.
  destruct (workers s !! i) as [w|] eqn:Hw; [|done].
  destruct (decide (w_pc w = W_sleeping)) as [Hpc|]; [|done].
  intros [= <-].
  eapply (full_worker_move l H s i w);
    [exact Hfull|exact Hw|reflexivity..|rewrite Hpc; reflexivity
    |simpl; by eauto|rewrite Hpc; discriminate].
Qed.

Lemma full_broadcast l H s :
  full l H s →
  inv l H (glob s) (array s) (workers (broadcast s)) (main_pc s) ∧
  ext l (glob s) (workers (broadcast s)) (main_pc s).
Proof.
  intros [Hinv Hext]. split; [by apply (inv_broadcast l H s)|].
  eapply ext_frame; try done. intros k q. simpl. unfold holds.
  rewrite lookup_fmap. destruct (workers s !! k) as [w|]; simpl.
  - assert (hold_of (w_pc (if decide (w_pc w = W_sleeping)
                           then goto W_woken w else w)) = hold_of (w_pc w) ∧
            a_request (if decide (w_pc w = W_sleeping)
                       then goto W_woken w else w) = a_request w) as [Hh Ha].
    { destruct (decide (w_pc w = W_sleeping)) as [Hs|]; [|done].
      simpl. by rewrite Hs. }
    split.
    + intros (w' & [= <-] & Hw' & Hq). exists w. by rewrite <- Hh, <- Ha.
    + intros (w' & [= <-] & Hw' & Hq). eexists. split; [done|].
      by rewrite Hh, Ha.
  - split; intros (w' & ? & _); done.
Qed.

(** Line 215. *)
Lemma ext_create l H g arr ws i w0 :
  inv l H g arr ws (M_create i) → ext l g ws (M_create i) →
  hold_of (w_pc w0) = NoHold →
  ext l g (<[Z.to_nat i := w0]> ws) (M_create (i + 1)).
Proof.
  intros Hinv Hext Hw0.
  pose proof (inv_created_range _ _ _ _ _ _ Hinv) as Hr. simpl in Hr.
  assert (ws !! Z.to_nat i = None) as Hnew.
  { destruct (ws !! Z.to_nat i) as [w|] eqn:Hw; [|done].
    apply (inv_created _ _ _ _ _ _ Hinv) in Hw. simpl in Hw. lia. }
  eapply ext_frame; try done.
  intros k q. rewrite holds_insert. split.
  - intros [(_ & Hh & _)|[_ Hk]]; done.
  - intros Hk. right. split; [|done]. intros ->.
    destruct Hk as (w & Hw & _). congruence.
Qed.

(** Lines 47-55. *)
Lemma ext_alloc l H g arr ws i a :
  inv l H g arr ws (M_add i) → ext l g ws (M_add i) →
  heap g !! a = None →
  ext l (with_heap (new_request fp_squareValue i a (heap g)) g) ws
      (M_add_lock i a).
Proof.
  intros Hinv [Hfifo Hlen Hlive] Hfresh. split; simpl in *; try done.
  intros q. unfold new_request. destruct (decide (q = a)) as [->|Hq].
  - rewrite lookup_insert_eq. split; [|by eauto].
    intros _. right; right. by exists i.
  - rewrite lookup_insert_ne by done. rewrite (Hlive q). split.
    + intros [?|[?|[j Hj]]]; [by left|by right; left|done].
    + intros [?|[?|[j Hj]]]; [by left|by right; left|].
      injection Hj as _ <-. done.
Qed.

(** Lines 62-74. *)
Lemma ext_link l H g g' arr ws i a :
  inv l H g arr ws (M_add_link i a) → ext l g ws (M_add_link i a) →
  link_request a g = Ok g' →
  ext (l ++ [(a, (fp_squareValue, i))]) g' ws (M_add_unlock i).
Proof.
  intros Hinv [Hfifo Hlen Hlive] Hlink. simpl in *.
  pose proof (inv_repr _ _ _ _ _ _ Hinv) as Hrepr.
  destruct (inv_main_node _ _ _ _ _ _ Hinv i a eq_refl)
    as (Hi & Ha & Hnode & Hal & Hnoheld).
  pose proof (link_request_Ok_inv _ _ _ Hlink) as Hlt.
  destruct (link_request_repr fp_squareValue i a g l Hrepr Ha Hnode Hal Hlt)
    as (g2 & Hlink2 & Hrepr' & _ & _ & _ & Hnew & Hframe).
  rewrite Hlink in Hlink2. injection Hlink2 as <-.
  split; simpl.
  - rewrite fmap_app, length_app. simpl.
    replace (Z.of_nat (length l + 1)) with (Z.of_nat (S (length l))) by lia.
    rewrite seqZ_S, fmap_app. simpl.
    replace (i + 1 - Z.of_nat (S (length l))) with (i - Z.of_nat (length l))
      by lia.
    rewrite <- Hfifo. do 3 f_equal. lia.
  - rewrite length_app. simpl. lia.
  - intros q. rewrite fmap_app, elem_of_app. simpl.
    rewrite list_elem_of_singleton.
    destruct (decide (q ∈ l.*1 ∨ q = a)) as [Hin|Hout].
    + split; [by left|]. intros _.
      apply (chain_live _ _ _ _ (proj1 Hrepr')).
      rewrite fmap_app, elem_of_app. simpl. by rewrite list_elem_of_singleton.
    + rewrite Hframe by tauto. rewrite (Hlive q). split.
      * intros [?|[?|[j Hj]]]; [tauto|by right; left|].
        injection Hj as _ <-. tauto.
      * intros [?|[?|[j Hj]]]; [tauto|by right; left|done].
Qed.

Lemma main_step_full oracle s s' l H :
  full l H s → main_step oracle s = Some (Ok s') → ∃ l' H', full l' H' s'.
Proof.
  intros Hfull. pose proof Hfull as [Hinv Hext]. unfold main_step.
  pose proof (inv_count _ _ _ _ _ _ Hinv) as Hcount.
  pose proof (inv_created_range _ _ _ _ _ _ Hinv) as Hcr.
  pose proof (inv_array_len _ _ _ _ _ _ Hinv) as Hlen.
  destruct (main_pc s) eqn:Hpc; unfold next_state, blocked, undefined;
    simpl in Hcount, Hcr.
  - (* M_init *)
    intros [= <-]. exists l, H. full_move full_main_move Hfull Hpc.
  - (* M_create *)
    destruct (decide (i < NUM_HANDLER_THREADS)) as [Hlt|Hge]; intros [= <-].
    + exists l, H. split; simpl.
      * by apply inv_create.
      * by eapply ext_create.
    + exists l, H. unfold NUM_HANDLER_THREADS in Hge. full_move full_main_move Hfull Hpc.
  - (* M_add *)
    rewrite Hlen.
    destruct (decide (i < Z.of_nat 13)) as [Hlt|Hge].
    + destruct (decide (oracle = NULL)); [done|].
      destruct (decide (heap (glob s) !! oracle = None)); [|done].
      intros [= <-]. exists l, H. split; simpl.
      * apply inv_alloc; [done|lia|done..].
      * by eapply ext_alloc.
    + intros [= <-]. exists l, H. full_move full_main_move Hfull Hpc.
  - (* M_add_lock *)
    destruct (lock (request_mutex s) Main); [|done]. intros [= <-].
    exists l, H. full_move full_main_move Hfull Hpc.
  - (* M_add_link *)
    destruct (link_request a (glob s)) as [g'| |] eqn:Hlink; try done.
    intros [= <-]. eexists _, H. split; simpl.
    + by eapply inv_link.
    + by eapply ext_link.
  - (* M_add_unlock *)
    destruct (unlock (request_mutex s) Main); try done. intros [= <-].
    exists l, H. full_move full_main_move Hfull Hpc.
  - (* M_add_signal *)
    assert (∀ s0, full l H s0 → main_pc s0 = M_add_signal i →
                  full l H (set_main_pc (M_delay i) s0)) as Hgo.
    { intros s0 Hfull0 Hpc0. full_move full_main_move Hfull0 Hpc0. }
    destruct (decide (sleeping s = ∅)).
    { intros [= <-]. exists l, H. by apply Hgo. }
    destruct (decide (0 ≤ oracle)); [|done].
    destruct (wake (Z.to_nat oracle) s) as [s1|] eqn:Hwake; [|done].
    intros [= <-]. exists l, H. apply Hgo.
    + by eapply full_wake.
    + by rewrite (wake_main_pc _ _ _ Hwake).
  - (* M_delay *)
    intros [= <-]. exists l, H. full_move full_main_move Hfull Hpc.
  - (* M_quit_lock *)
    destruct (lock (quit_mutex s) Main); [|done]. intros [= <-].
    exists l, H. full_move full_main_move Hfull Hpc.
  - (* M_quit_set *)
    intros [= <-]. exists l, H. full_move full_main_move Hfull Hpc.
  - (* M_quit_unlock *)
    destruct (unlock (quit_mutex s) Main); try done. intros [= <-].
    exists l, H. full_move full_main_move Hfull Hpc.
  - (* M_broadcast *)
    intros [= <-]. exists l, H.
    destruct (full_broadcast l H s Hfull) as [Hinv' Hext'].
    rewrite Hpc in Hinv', Hext'. split; simpl.
    + main_move inv_main_move.
    + eapply ext_frame; try done.
  - (* M_join *)
    destruct (decide (i < NUM_HANDLER_THREADS)) as [Hlt|Hge].
    + destruct (workers s !! Z.to_nat i) as [w|] eqn:Hw; [|done].
      destruct (decide (w_pc w = W_done)) as [Hd|]; [|done].
      intros [= <-]. exists l, H. full_move full_main_move Hfull Hpc.
      intros k w0 Hk Hj. destruct (decide (Z.of_nat k < i)) as [Hki|Hki].
      * by eapply (inv_joined _ _ _ _ _ _ Hinv).
      * assert (k = Z.to_nat i) as -> by lia. congruence.
    + intros [= <-]. exists l, H. full_move full_main_move Hfull Hpc.
      intros k w0 Hk Hj. eapply (inv_joined _ _ _ _ _ _ Hinv); [done|].
      simpl. unfold NUM_HANDLER_THREADS in Hge. lia.
  - (* M_print *)
    intros [= <-]. exists l, H. full_move full_main_move Hfull Hpc.
    intros k w0 Hk Hj. by eapply (inv_joined _ _ _ _ _ _ Hinv).
  - done.
Qed.

Lemma step_full lab s s' l H :
  full l H s → step lab s = Some (Ok s') → ∃ l' H', full l' H' s'.
Proof.
  intros Hfull. destruct lab as [oracle|i|i]; simpl.
  - by eapply main_step_full.
  - by eapply worker_step_full.
  - destruct (wake i s) as [s1|] eqn:Hwake; [|done].
    intros [= <-]. exists l, H. by eapply full_wake.
Qed.

Lemma init_system_full : ∃ l H, full l H init_system.
Proof.
  destruct init_system_inv as (l & H & Hinv).
  assert (l = []) as ->.
  { destruct (inv_repr _ _ _ _ _ _ Hinv) as (_ & Hlen & _).
    destruct l; [done|]. simpl in Hlen. done. }
  exists [], H. split; [done|]. split; simpl; try done.
  intros q. rewrite lookup_empty. split; [by intros [? ?]|].
  intros [Hq|[[k (w & Hw & _)]|[j Hj]]]; try done.
  by apply elem_of_nil in Hq.
Qed.

Lemma run_schedule_full sched : ∀ s s' l H,
  full l H s → run_schedule sched s = Some (Ok s') → ∃ l' H', full l' H' s'.
Proof.
  induction sched as [|lab sched IH]; simpl; intros s s' l H Hfull.
  - intros [= <-]. by exists l, H.
  - destruct (step lab s) as [[s1| |]|] eqn:Hstep; try done.
    destruct (step_full _ _ _ _ _ Hfull Hstep) as (l1 & H1 & Hfull1).
    by apply (IH s1 s' l1 H1).
Qed.

(** ** No undefined behaviour in the demo *)








(** * The runs of the demo *)


(** X9. Lock discipline: in every run of the demo, a worker that tests or
    takes from the list (lines 148-150) owns [request_mutex], and so does
    main when it links a request (lines 62-74), so that no two threads
    are at the list together; a worker that reads [quit] (line 179) and
    main when it writes it (line 236) own [quit_mutex]; and a worker
    does not own [request_mutex] while it runs the function of a request
    (line 159). *)
Theorem lock_discipline (sched : list label) (s : system) :
  run_schedule sched init_system = Some (Ok s) →
  (∀ k w, workers s !! k = Some w →
     w_pc w = W_if_pending ∨ w_pc w = W_get →
     request_mutex s = Some (Worker k)) ∧
  (∀ i a, main_pc s = M_add_link i a → request_mutex s = Some Main) ∧
  (∀ k k' w w', workers s !! k = Some w → workers s !! k' = Some w' →
     w_pc w = W_if_pending ∨ w_pc w = W_get →
     w_pc w' = W_if_pending ∨ w_pc w' = W_get → k = k') ∧
  (∀ k w i a, workers s !! k = Some w →
     w_pc w = W_if_pending ∨ w_pc w = W_get →
     main_pc s ≠ M_add_link i a) ∧
  (∀ k w, workers s !! k = Some w → w_pc w = W_quit_test →
     quit_mutex s = Some (Worker k)) ∧
  (main_pc s = M_quit_set → quit_mutex s = Some Main) ∧
  (∀ k w, workers s !! k = Some w → w_pc w = W_handle →
     request_mutex s ≠ Some (Worker k)).
Proof.
  intros Hrun.
  pose proof (run_schedule_aux _ _ _ init_system_aux Hrun) as Haux.
  assert (∀ k w, workers s !! k = Some w →
            w_pc w = W_if_pending ∨ w_pc w = W_get →
            request_mutex s = Some (Worker k)) as Hlist.
  { intros k w Hw Hpc. apply (aux_req_worker _ Haux _ _ Hw).
    by destruct Hpc as [-> | ->]. }
  assert (∀ i a, main_pc s = M_add_link i a → request_mutex s = Some Main)
    as Hmain.
  { intros i a Hpc. apply (aux_req_main _ Haux). by rewrite Hpc. }
  split; [done|]. split; [done|]. split; [|split; [|split; [|split]]].
  - intros k k' w w' Hw Hw' Hpc Hpc'.
    pose proof (Hlist _ _ Hw Hpc) as Hk. pose proof (Hlist _ _ Hw' Hpc') as Hk'.
    congruence.
  - intros k w i a Hw Hpc Hm.
    pose proof (Hlist _ _ Hw Hpc) as Hk. pose proof (Hmain _ _ Hm) as Hk'.
    congruence.
  - intros k w Hw Hpc. apply (aux_quit_worker _ Haux _ _ Hw). by rewrite Hpc.
  - intros Hpc. apply (aux_quit_main _ Haux). by rewrite Hpc.
  - intros k w Hw Hpc Hm.
    destruct (aux_req_owner _ Haux _ Hm) as (w0 & Hw0 & Hb).
    rewrite Hw in Hw0. injection Hw0 as <-. by rewrite Hpc in Hb.
Qed.

(** X10. First in, first out across the pool: in every run of the demo
    the list holds the requests of consecutive slots [k], [k+1], ... of
    the array, in that order, so that the workers take the requests in
    the order main submitted them. *)
Theorem pool_fifo (sched : list label) (s : system) :
  run_schedule sched init_system = Some (Ok s) →
  ∃ l k, contents (glob s) = Some l ∧ 0 ≤ k ∧
         k + Z.of_nat (length l) ≤ 13 ∧
         l.*2 = (λ j, (fp_squareValue, j)) <$> seqZ k (Z.of_nat (length l)).
Proof.
  intros Hrun. destruct init_system_full as (l0 & H0 & Hfull0).
  destruct (run_schedule_full _ _ _ _ _ Hfull0 Hrun) as (l & H & Hinv & Hext).
  pose proof (inv_count _ _ _ _ _ _ Hinv) as Hcount.
  pose proof (ext_len _ _ _ _ Hext) as Hlen.
  exists l, (submitted_count (main_pc s) - Z.of_nat (length l)).
  split; [|split; [lia|split; [lia|apply (ext_fifo _ _ _ _ Hext)]]].
  by apply (contents_repr (glob s) l), (inv_repr _ _ _ _ _ _ Hinv).
Qed.

(** X11. Clean join: in every run of the demo, once main is past the
    joins the three workers have returned, both mutexes are unlocked,
    and the live request nodes are exactly the nodes still in the list:
    every request a worker took has been freed. *)
Theorem clean_join (sched : list label) (s : system) :
  run_schedule sched init_system = Some (Ok s) →
  main_pc s = M_print ∨ main_pc s = M_done →
  (∀ k : nat, (k < 3)%nat →
     ∃ w, workers s !! k = Some w ∧ w_pc w = W_done) ∧
  (∀ k w, workers s !! k = Some w → w_pc w = W_done) ∧
  request_mutex s = None ∧ quit_mutex s = None ∧
  ∃ l, contents (glob s) = Some l ∧
       ∀ q, is_Some (heap (glob s) !! q) ↔ q ∈ l.*1.
Proof.
  intros Hrun Hpc. destruct init_system_full as (l0 & H0 & Hfull0).
  destruct (run_schedule_full _ _ _ _ _ Hfull0 Hrun) as (l & H & Hinv & Hext).
  pose proof (run_schedule_aux _ _ _ init_system_aux Hrun) as Haux.
  assert (created_count (main_pc s) = 3 ∧ joined_count (main_pc s) = 3 ∧
          m_req (main_pc s) = false ∧ m_quit (main_pc s) = false ∧
          main_node (main_pc s) = None) as (Hcr & Hj & Hmr & Hmq & Hnode).
  { by destruct Hpc as [-> | ->]. }
  assert (∀ k w, workers s !! k = Some w → w_pc w = W_done) as Hdone.
  { intros k w Hw. apply (inv_joined _ _ _ _ _ _ Hinv _ _ Hw).
    rewrite Hj, <- Hcr. by apply (aux_keys _ Haux _ _ Hw). }
  split; [|split; [done|split; [|split]]].
  - intros k Hk. destruct (aux_exist _ Haux k) as [w Hw]; [lia|].
    exists w. split; [done|]. by eapply Hdone.
  - destruct (request_mutex s) as [[|k]|] eqn:Hm; [| |done].
    + apply (aux_req_main _ Haux) in Hm. congruence.
    + destruct (aux_req_owner _ Haux _ Hm) as (w & Hw & Hb).
      by rewrite (Hdone _ _ Hw) in Hb.
  - destruct (quit_mutex s) as [[|k]|] eqn:Hm; [| |done].
    + apply (aux_quit_main _ Haux) in Hm. congruence.
    + destruct (aux_quit_owner _ Haux _ Hm) as (w & Hw & Hb).
      by rewrite (Hdone _ _ Hw) in Hb.
  - exists l. split.
    { by apply (contents_repr (glob s) l), (inv_repr _ _ _ _ _ _ Hinv). }
    intros q. rewrite (ext_live _ _ _ _ Hext q). rewrite Hnode. split.
    + intros [?|[[k (w & Hw & Hh & _)]|[j Hj']]]; [done| |done].
      by rewrite (Hdone _ _ Hw) in Hh.
    + by left.
Qed.

Lemma worker_step_others j s s' :
  worker_step j s = Some (Ok s') →
  main_pc s' = main_pc s ∧
  ∀ k, k ≠ j → workers s' !! k = workers s !! k.
Proof.
  unfold worker_step, next_state, blocked, undefined.
  repeat case_match; try done; intros [= <-]; simpl;
    (split; [done|]; intros k Hk; by rewrite lookup_insert_ne).
Qed.

(** X12. Lost wakeup: when main is in its joins and a worker it has not
    joined yet sleeps on the condition, no step of the program wakes
    that worker and main never gets past its join: whatever the other
    threads do, short of a spurious wakeup the worker stays in
    [pthread_cond_wait] and main stays in [pthread_join]. *)
Theorem sleeper_never_woken (sched : list label) (s s' : system)
    (k : nat) (w : worker) (i : Z) :
  Z.of_nat k < NUM_HANDLER_THREADS →
  main_pc s = M_join i → i ≤ Z.of_nat k →
  workers s !! k = Some w → w_pc w = W_sleeping →
  Forall (λ lab, is_spurious lab = false) sched →
  run_schedule sched s = Some (Ok s') →
  workers s' !! k = Some w ∧
  ∃ i', main_pc s' = M_join i' ∧ i' ≤ Z.of_nat k.
Proof.
  intros Hk. revert s i.
  induction sched as [|lab sched IH]; simpl; intros s i Hpc Hi Hw Hsleep Hns.
  - intros [= <-]. split; [done|]. by exists i.
  - apply Forall_cons in Hns as [Hlab Hns].
    destruct (step lab s) as [[s1| |]|] eqn:Hstep; try done.
    destruct lab as [oracle|j|j]; simpl in Hstep, Hlab; [| |done].
    + unfold main_step in Hstep. rewrite Hpc in Hstep.
      destruct (decide (i < NUM_HANDLER_THREADS)) as [Hlt|Hge]; [|lia].
      destruct (workers s !! Z.to_nat i) as [w0|] eqn:Hw0; [|done].
      destruct (decide (w_pc w0 = W_done)) as [Hd|]; [|done].
      injection Hstep as <-.
      assert (Z.to_nat i ≠ k) as Hne.
      { intros <-. rewrite Hw in Hw0. injection Hw0 as <-. congruence. }
      apply (IH _ (i + 1)); try done. lia.
    + destruct (decide (j = k)) as [->|Hne].
      { unfold worker_step in Hstep. by rewrite Hw, Hsleep in Hstep. }
      destruct (worker_step_others _ _ _ Hstep) as [Hpc1 Hws1].
      apply (IH _ i); try done; [by rewrite Hpc1|].
      by rewrite Hws1.
Qed.

Lemma sleeper_never_woken_witness :
  run_schedule lost_wakeup_schedule init_system = Some (Ok after_lost_wakeup) ∧
  main_pc after_lost_wakeup = M_join 0 ∧
  quit (glob after_lost_wakeup) = 1 ∧
  num_requests (glob after_lost_wakeup) = 0 ∧
  ∃ s', run_schedule (replicate 4 (L_worker 1) ++ replicate 4 (L_worker 2))
          after_lost_wakeup = Some (Ok s') ∧
        w_pc <$> workers s' !! 0%nat = Some W_sleeping ∧
        ∃ i', main_pc s' = M_join i' ∧ i' ≤ 0.
Proof.
  split; [vm_compute; reflexivity|].
  split; [reflexivity|]. split; [reflexivity|]. split; [reflexivity|].
  eexists. split; [vm_compute; reflexivity|].
  match goal with
  | |- w_pc <$> workers ?s1 !! _ = _ ∧ _ =>
      destruct (sleeper_never_woken
                  (replicate 4 (L_worker 1) ++ replicate 4 (L_worker 2))
                  after_lost_wakeup s1 0%nat
                  {| w_pc := W_sleeping; a_request := 112; running := 1 |} 0)
        as (Hw & Hpc)
  end.
  - reflexivity.
  - reflexivity.
  - reflexivity.
  - vm_compute. reflexivity.
  - reflexivity.
  - repeat constructor.
  - vm_compute. reflexivity.
  - split; [by rewrite Hw|exact Hpc].
Defined.

(** * The test at line 151 and the output *)

(** ** The test at line 151 and the output *)

Lemma worker_step_counter j s s' w :
  worker_step j s = Some (Ok s') → workers s !! j = Some w →
  w_pc w ≠ W_get →
  num_requests (glob s') = num_requests (glob s) ∧
  stdout s' = stdout s ∧ main_pc s' = main_pc s.
Proof.
  unfold worker_step, next_state, blocked, undefined. intros Hstep Hw.
  rewrite Hw in Hstep. destruct (w_pc w) eqn:Hpc; try done; intros _;
    repeat case_match; try done; injection Hstep as <-; simpl; try done.
  match goal with
  | Hf : free _ _ = Ok _ |- _ => apply free_fields in Hf as (-> & _)
  end. done.
Qed.

Lemma worker_step_late i s s' l H :
  full l H s → aux s → late s →
  worker_step i s = Some (Ok s') → late s'.
Proof.
  intros [Hinv Hext] Haux [Hpend Hout] Hstep.
  destruct (workers s !! i) as [w|] eqn:Hw;
    [|by unfold worker_step in Hstep; rewrite Hw in Hstep].
  assert (w_pc w ≠ W_done) as Hnd.
  { intros Hd. unfold worker_step in Hstep. by rewrite Hw, Hd in Hstep. }
  assert (main_pc s ≠ M_done) as Hmain.
  { intros Hm. apply Hnd. apply (inv_joined _ _ _ _ _ _ Hinv _ _ Hw).
    rewrite Hm. simpl. pose proof (aux_keys _ Haux _ _ Hw) as Hk.
    by rewrite Hm in Hk. }
  destruct (worker_step_others _ _ _ Hstep) as [Hpc' Hothers].
  assert (stdout s' = stdout s ∧ array s = array s ∧
          match main_pc s' with M_done => False | _ => True end) as (Ho & _ & Hnm).
  { split; [|split; [done|]].
    - unfold worker_step, next_state, blocked, undefined in Hstep.
      rewrite Hw in Hstep. repeat case_match; try done;
        by injection Hstep as <-.
    - rewrite Hpc'. by destruct (main_pc s). }
  split.
  - intros k w' Hw' Hget. destruct (decide (k = i)) as [->|Hne].
    + (* the stepping worker arrives at line 150 from line 148 *)
      unfold worker_step, next_state, blocked, undefined in Hstep.
      rewrite Hw in Hstep.
      destruct (w_pc w) eqn:Hpc; repeat case_match; try done;
        injection Hstep as <-; simpl in *;
        rewrite lookup_insert_eq in Hw'; injection Hw' as <-;
        simpl in Hget; try done; try lia.
    + rewrite Hothers in Hw' by done.
      destruct (decide (w_pc w = W_get)) as [Hg|Hg].
      * (* two workers at line 150: both own the mutex *)
        pose proof (aux_req_worker _ Haux _ _ Hw) as Hm.
        pose proof (aux_req_worker _ Haux _ _ Hw') as Hm'.
        rewrite Hg in Hm. rewrite Hget in Hm'.
        specialize (Hm eq_refl). specialize (Hm' eq_refl). congruence.
      * destruct (worker_step_counter _ _ _ _ Hstep Hw Hg) as (-> & _).
        by eapply Hpend.
  - rewrite Hpc'. rewrite Hpc' in Hnm.
    destruct (main_pc s); try done; by rewrite Ho.
Qed.

Lemma wake_late i s s' : late s → wake i s = Some s' → late s'.
Proof.
  intros [Hpend Hout]. unfold wake.
  destruct (workers s !! i) as [w|] eqn:Hw; [|done].
  destruct (decide (w_pc w = W_sleeping)) as [Hpc|]; [|done].
  intros [= <-]. split; simpl; [|done].
  intros k w' Hw' Hget. destruct (decide (k = i)) as [->|Hne].
  - rewrite lookup_insert_eq in Hw'. by injection Hw' as <-.
  - rewrite lookup_insert_ne in Hw' by done. by eapply Hpend.
Qed.

Lemma main_step_late oracle s s' :
  aux s → late s → main_step oracle s = Some (Ok s') → late s'.
Proof.
  intros Haux Hlate. pose proof Hlate as [Hpend Hout]. unfold main_step.
  destruct (main_pc s) eqn:Hpc; unfold next_state, blocked, undefined.
  - intros [= <-]. by split.
  - destruct (decide (i < NUM_HANDLER_THREADS)); intros [= <-];
      (split; simpl; [|done]); [|done].
    intros k w Hw Hget. destruct (decide (k = Z.to_nat i)) as [->|Hne].
    + rewrite lookup_insert_eq in Hw. by injection Hw as <-.
    + rewrite lookup_insert_ne in Hw by done. by eapply Hpend.
  - repeat case_match; try done; intros [= <-]; by split.
  - destruct (lock (request_mutex s) Main); [|done]. intros [= <-]. by split.
  - destruct (link_request a (glob s)) as [g'| |] eqn:Hlink; try done.
    intros [= <-]. split; simpl; [|done].
    intros k w Hw Hget.
    pose proof (aux_req_worker _ Haux _ _ Hw) as Hm. rewrite Hget in Hm.
    specialize (Hm eq_refl).
    pose proof (proj1 (aux_req_main _ Haux)) as Hm'. rewrite Hpc in Hm'.
    specialize (Hm' eq_refl). congruence.
  - destruct (unlock (request_mutex s) Main); try done. intros [= <-].
    by split.
  - destruct (decide (sleeping s = ∅)).
    { intros [= <-]. by split. }
    destruct (decide (0 ≤ oracle)); [|done].
    destruct (wake (Z.to_nat oracle) s) as [s1|] eqn:Hwake; [|done].
    intros [= <-].
    destruct (wake_late _ _ _ Hlate Hwake) as [Hp1 Ho1].
    rewrite (wake_main_pc _ _ _ Hwake), Hpc in Ho1. by split.
  - intros [= <-]. by split.
  - destruct (lock (quit_mutex s) Main); [|done]. intros [= <-]. by split.
  - intros [= <-]. by split.
  - destruct (unlock (quit_mutex s) Main); try done. intros [= <-]. by split.
  - intros [= <-]. split; simpl; [|done].
    intros k w' Hw' Hget. rewrite lookup_fmap in Hw'.
    destruct (workers s !! k) as [w|] eqn:Hw; [|done]. injection Hw' as <-.
    apply (Hpend _ _ Hw).
    destruct (decide (w_pc w = W_sleeping)) as [Hs|]; [|done]. done.
  - repeat case_match; try done; intros [= <-]; by split.
  - intros [= <-]. by split.
  - done.
Qed.

Lemma step_late lab s s' l H :
  full l H s → aux s → late s → step lab s = Some (Ok s') → late s'.
Proof.
  intros Hfull Haux Hlate. destruct lab as [oracle|i|i]; simpl.
  - by apply main_step_late.
  - by eapply worker_step_late.
  - destruct (wake i s) as [s1|] eqn:Hwake; [|done].
    intros [= <-]. by eapply wake_late.
Qed.

Lemma init_system_late : late init_system.
Proof. split; simpl; [|done]. intros k w Hw. by rewrite lookup_empty in Hw. Qed.

Lemma run_schedule_late sched : ∀ s s' l H,
  full l H s → aux s → late s →
  run_schedule sched s = Some (Ok s') → late s'.
Proof.
  induction sched as [|lab sched IH]; simpl; intros s s' l H Hfull Haux Hlate.
  - by intros [= <-].
  - destruct (step lab s) as [[s1| |]|] eqn:Hstep; try done.
    destruct (step_full _ _ _ _ _ Hfull Hstep) as (l1 & H1 & Hfull1).
    apply (IH s1 s' l1 H1);
      [done|by eapply step_aux|by eapply (step_late lab s s1 l H)].
Qed.

(** X14. The test [if (a_request)] at line 151 never fails: in every run
    of the demo, when a worker calls [get_request] at line 150 the call
    returns a request, not [NULL], and that request is the head of the
    list. *)
Theorem worker_gets_a_request (sched : list label) (s : system) (k : nat)
    (w : worker) :
  run_schedule sched init_system = Some (Ok s) →
  workers s !! k = Some w → w_pc w = W_get →
  ∃ p g', get_request (glob s) = Ok (p, g') ∧ p ≠ NULL ∧
          p = requests (glob s) ∧
          num_requests (glob s) > 0.
Proof.
  intros Hrun Hw Hpc. destruct init_system_full as (l0 & H0 & Hfull0).
  destruct (run_schedule_full _ _ _ _ _ Hfull0 Hrun) as (l & H & Hfull).
  pose proof (run_schedule_aux _ _ _ init_system_aux Hrun) as Haux.
  pose proof (run_schedule_late _ _ _ _ _ Hfull0 init_system_aux
                init_system_late Hrun) as Hlate.
  pose proof (late_pending _ Hlate _ _ Hw Hpc) as Hnum.
  destruct Hfull as [Hinv _].
  pose proof (inv_repr _ _ _ _ _ _ Hinv) as Hrepr.
  destruct l as [|[a it] l1].
  { destruct Hrepr as (_ & Hlen & _). simpl in Hlen. lia. }
  destruct (get_request_repr _ _ _ _ Hrepr) as (r & _ & _ & Hget & _).
  pose proof Hrepr as ((Hp & Ha & _) & _).
  eexists a, _. split; [exact Hget|]. done.
Qed.


(** * Exits *)





(** * Sample runs of the properties of the demo *)

Lemma worker_exits_only_after_quit_witness :
  run_schedule early_quit_prefix init_system = Some (Ok at_early_quit) ∧
  leaves_loop 0 at_early_quit past_early_quit ∧
  quit (glob at_early_quit) = 1 ∧
  quit_written (main_pc at_early_quit) = true.
Proof.
  assert (run_schedule early_quit_prefix init_system
            = Some (Ok at_early_quit)) as Hrun by (vm_compute; reflexivity).
  assert (leaves_loop 0 at_early_quit past_early_quit) as Hloop.
  { eexists. eexists. split; [vm_compute; reflexivity|].
    split; [reflexivity|]. split; [vm_compute; reflexivity|].
    split; [vm_compute; reflexivity|reflexivity]. }
  split; [exact Hrun|]. split; [exact Hloop|].
  exact (worker_exits_only_after_quit early_quit_prefix at_early_quit
           past_early_quit 0%nat Hrun Hloop).
Defined.

Lemma lock_discipline_witness :
  run_schedule line_150_schedule init_system = Some (Ok at_line_150) ∧
  w_pc <$> workers at_line_150 !! 0%nat = Some W_get ∧
  request_mutex at_line_150 = Some (Worker 0).
Proof.
  assert (run_schedule line_150_schedule init_system
            = Some (Ok at_line_150)) as Hrun by (vm_compute; reflexivity).
  split; [exact Hrun|]. split; [vm_compute; reflexivity|].
  destruct (lock_discipline line_150_schedule at_line_150 Hrun)
    as (Hlist & _).
  apply (Hlist 0%nat {| w_pc := W_get; a_request := NULL; running := 1 |}).
  - vm_compute. reflexivity.
  - right. reflexivity.
Defined.

Lemma pool_fifo_witness :
  run_schedule early_quit_schedule init_system = Some (Ok after_early_quit) ∧
  ∃ l k, contents (glob after_early_quit) = Some l ∧ 0 ≤ k ∧
         k + Z.of_nat (length l) ≤ 13 ∧
         l.*2 = (λ j, (fp_squareValue, j)) <$> seqZ k (Z.of_nat (length l)).
Proof.
  assert (run_schedule early_quit_schedule init_system
            = Some (Ok after_early_quit)) as Hrun by (vm_compute; reflexivity).
  split; [exact Hrun|].
  exact (pool_fifo early_quit_schedule after_early_quit Hrun).
Defined.

Lemma clean_join_witness :
  run_schedule early_quit_schedule init_system = Some (Ok after_early_quit) ∧
  main_pc after_early_quit = M_done ∧
  request_mutex after_early_quit = None ∧
  quit_mutex after_early_quit = None ∧
  ∃ l, contents (glob after_early_quit) = Some l ∧
       ∀ q, is_Some (heap (glob after_early_quit) !! q) ↔ q ∈ l.*1.
Proof.
  assert (run_schedule early_quit_schedule init_system
            = Some (Ok after_early_quit)) as Hrun by (vm_compute; reflexivity).
  split; [exact Hrun|]. split; [reflexivity|].
  destruct (clean_join early_quit_schedule after_early_quit Hrun)
    as (_ & _ & Hreq & Hquit & Hlive); [by right|].
  split; [exact Hreq|]. split; [exact Hquit|exact Hlive].
Defined.


Lemma worker_gets_a_request_witness :
  run_schedule line_150_schedule init_system = Some (Ok at_line_150) ∧
  ∃ p g', get_request (glob at_line_150) = Ok (p, g') ∧ p ≠ NULL ∧
          p = requests (glob at_line_150) ∧
          num_requests (glob at_line_150) > 0.
Proof.
  assert (run_schedule line_150_schedule init_system
            = Some (Ok at_line_150)) as Hrun by (vm_compute; reflexivity).
  split; [exact Hrun|].
  apply (worker_gets_a_request line_150_schedule at_line_150 0%nat
           {| w_pc := W_get; a_request := NULL; running := 1 |} Hrun).
  - vm_compute. reflexivity.
  - reflexivity.
Defined.

